(** * TournamentScheduler: the schedule generator of [Schedule.py]

    A shallow embedding of [generate_schedule] (Schedule.py, lines 62-107)
    and the properties of the schedule and of the per-team match counts it
    returns; then of the data the script computes around it: the names of
    the form and their uniqueness test, the handler of the button and the
    rows of the export.

    Conventions of the embedding:
    - team names are [string]s, the roster [team_names] is a [list string];
    - the dict [team_match_count] is a [gmap string nat]; a subscript
      [team_match_count[t]] on a missing key raises [KeyError];
    - the three settings [teams_per_match], [tournament_days] and
      [matches_per_day] are read from [st.number_input] widgets whose
      [min_value] is 2, 1 and 1: they are natural numbers;
    - [random.sample] draws from an explicit random source, and raises
      [ValueError] when asked for more elements than the population has;
    - exceptions are values of [result]. *)

From stdpp Require Import gmap strings list fin_maps sorting.
From stdpp Require Import pretty.
From Stdlib Require Import Ascii.

Set Warnings "-clear-no-such-hyp".

(** ** Exceptions *)

Inductive exn : Type :=
  | KeyError
  | ValueError.

Inductive result (A : Type) : Type :=
  | Ok (a : A)
  | Raise (e : exn).

Arguments Ok {A} a.
Arguments Raise {A} e.

Global Instance result_bind : MBind result := λ A B k r,
  match r with
  | Ok a => k a
  | Raise e => Raise e
  end.

(** ** Data model *)

(** A match-record [{"match_id": ..., "teams": ...}]. *)
Record Match : Type := mkMatch {
  match_id : nat;
  teams : list string
}.

(** A day-record [{"day": ..., "matches": ...}]. *)
Record Day : Type := mkDay {
  day : nat;
  matches : list Match
}.

(** The variables of [generate_schedule] that live across loop iterations.
    [rng_cursor] is the position in the random source; [snapshots] is a
    ghost field: the value of [team_match_count] after the counts of each
    formed match were incremented (line 93), oldest first. *)
Record state : Type := mkState {
  team_match_count : gmap string nat;
  next_match_id : nat;
  rng_cursor : nat;
  snapshots : list (gmap string nat)
}.

(** ** The dict *)

(** [d[t]] *)
Definition subscript (d : gmap string nat) (t : string) : result nat :=
  match d !! t with
  | Some c => Ok c
  | None => Raise KeyError
  end.

(** [{k: v for k, v in pairs}]: later pairs overwrite earlier ones. *)
Definition dict_of_pairs (pairs : list (string * nat)) : gmap string nat :=
  foldl (λ d p, <[p.1 := p.2]> d) ∅ pairs.

(** The sum of the values of a dict. *)
Definition sum_values (d : gmap string nat) : nat :=
  map_fold (λ _ v acc, v + acc) 0 d.

(** ** [sorted(teams, key=...)]

    Python evaluates the key once per element, then sorts the decorated
    list with a stable sort.  A stable sort has one possible result; it is
    computed here by insertion from the right, a new element going in
    front of the elements whose key is not smaller. *)

Fixpoint decorate (d : gmap string nat) (l : list string) : result (list (nat * string)) :=
  match l with
  | [] => Ok []
  | t :: l' =>
      c ← subscript d t;
      r ← decorate d l';
      Ok ((c, t) :: r)
  end.

Fixpoint insert_stable (x : nat * string) (l : list (nat * string)) : list (nat * string) :=
  match l with
  | [] => [x]
  | y :: l' => if decide (x.1 ≤ y.1) then x :: y :: l' else y :: insert_stable x l'
  end.

Definition sort_stable (l : list (nat * string)) : list (nat * string) :=
  foldr insert_stable [] l.

Definition sorted (l : list string) (d : gmap string nat) : result (list string) :=
  dl ← decorate d l;
  Ok ((sort_stable dl).*2).

(** ** [random.sample(population, k)]

    The random source is a sequence of raw draws; [randbelow n] at cursor
    [cur] is [rng cur mod n].  The selection is the pool algorithm of the
    library: the chosen slot is refilled with the last element of the
    pool.  More than [len(population)] elements cannot be drawn. *)

Definition Rng : Type := nat → nat.

Fixpoint sample_pool (rng : Rng) (cur : nat) (pool : list string) (k : nat)
  : list string * nat :=
  match k with
  | 0 => ([], cur)
  | S k' =>
      let n := length pool in
      let j := rng cur `mod` n in
      match pool !! j with
      | None => ([], cur)
      | Some x =>
          let pool' := take (n - 1) (<[j := default x (last pool)]> pool) in
          let '(rest, cur') := sample_pool rng (S cur) pool' k' in
          (x :: rest, cur')
      end
  end.

Definition sample (rng : Rng) (cur : nat) (population : list string) (k : nat)
  : result (list string * nat) :=
  if decide (k ≤ length population)
  then Ok (sample_pool rng cur population k)
  else Raise ValueError.

(** ** [generate_schedule] *)

(** [for team in match_teams: team_match_count[team] += 1] (lines 92-93) *)
Fixpoint increment_all (d : gmap string nat) (l : list string) : result (gmap string nat) :=
  match l with
  | [] => Ok d
  | t :: l' =>
      c ← subscript d t;
      increment_all (<[t := S c]> d) l'
  end.

Section Generate.

Variable rng : Rng.
Variable team_names : list string.
Variable teams_per_match : nat.
Variable tournament_days : nat.
Variable matches_per_day : nat.

(** The body of the inner loop (lines 78-100): form one match. *)
Definition form_match (st : state) : result (Match * state) :=
  sorted_teams ← sorted team_names (team_match_count st);
  let match_teams := take teams_per_match sorted_teams in
  '(match_teams, cur) ←
    (if decide (length match_teams < teams_per_match)
     then
       let remaining_teams := filter (λ t, t ∉ match_teams) team_names in
       '(additional_teams, cur) ←
         sample rng (rng_cursor st) remaining_teams
                (teams_per_match - length match_teams);
       Ok (match_teams ++ additional_teams, cur)
     else Ok (match_teams, rng_cursor st));
  d ← increment_all (team_match_count st) match_teams;
  Ok (mkMatch (next_match_id st) match_teams,
      mkState d (S (next_match_id st)) cur (snapshots st ++ [d])).

(** The inner loop (line 77), [n] iterations left. *)
Fixpoint day_loop (n : nat) (day_matches : list Match) (st : state)
  : result (list Match * state) :=
  match n with
  | 0 => Ok (day_matches, st)
  | S n' =>
      '(m, st') ← form_match st;
      day_loop n' (day_matches ++ [m]) st'
  end.

(** The outer loop (line 74) over the remaining values of [day]. *)
Fixpoint schedule_loop (days : list nat) (schedule : list Day) (st : state)
  : result (list Day * state) :=
  match days with
  | [] => Ok (schedule, st)
  | d :: days' =>
      '(day_matches, st') ← day_loop matches_per_day [] st;
      schedule_loop days' (schedule ++ [mkDay (d + 1) day_matches]) st'
  end.

Definition initial_state : state :=
  let teams := team_names in
  mkState (dict_of_pairs (zip teams (replicate (length teams) 0))) 1 0 [].

(** The whole run, with the final loop state. *)
Definition run : result (list Day * state) :=
  schedule_loop (seq 0 tournament_days) [] initial_state.

(** [generate_schedule()]: the schedule and the final counts. *)
Definition generate_schedule : result (list Day * gmap string nat) :=
  '(schedule, st) ← run;
  Ok (schedule, team_match_count st).

(** The counts after each match of the run, in order (ghost). *)
Definition count_history : result (list (gmap string nat)) :=
  '(_, st) ← run;
  Ok (snapshots st).

End Generate.

(** Match ids in day order and, within a day, in match order. *)
Definition match_ids (schedule : list Day) : list nat :=
  concat ((λ dr, match_id <$> matches dr) <$> schedule).

(** The matches of a schedule in day order. *)
Definition all_matches (schedule : list Day) : list Match :=
  concat (matches <$> schedule).

Definition roster10 : list string :=
  ["T1"; "T2"; "T3"; "T4"; "T5"; "T6"; "T7"; "T8"; "T9"; "T10"].

(** The roster the form proposes for ten teams (line 55). *)
Definition default_names10 : list string :=
  ["Team 1"; "Team 2"; "Team 3"; "Team 4"; "Team 5";
   "Team 6"; "Team 7"; "Team 8"; "Team 9"; "Team 10"].

(** ** The run when nothing raises

    When every team is a key of the dict and [teams_per_match] does not
    exceed the roster, no subscript fails and the fill branch is skipped.
    The functions below describe that run without the exception plumbing;
    the section [Refinement] proves that [form_match] and the loops agree
    with them. *)

Definition count_of (d : gmap string nat) (t : string) : nat :=
  default 0 (d !! t).

Definition sorted_by_count (l : list string) (d : gmap string nat) : list string :=
  (sort_stable ((λ t, (count_of d t, t)) <$> l)).*2.

Definition bump (d : gmap string nat) (l : list string) : gmap string nat :=
  foldl (λ d t, <[t := S (count_of d t)]> d) d l.

Definition selection (team_names : list string) (teams_per_match : nat)
    (d : gmap string nat) : list string :=
  take teams_per_match (sorted_by_count team_names d).

Definition next_match (team_names : list string) (teams_per_match : nat)
    (st : state) : Match :=
  mkMatch (next_match_id st) (selection team_names teams_per_match (team_match_count st)).

Definition next_state (team_names : list string) (teams_per_match : nat)
    (st : state) : state :=
  let d := bump (team_match_count st)
                (selection team_names teams_per_match (team_match_count st)) in
  mkState d (S (next_match_id st)) (rng_cursor st) (snapshots st ++ [d]).

Fixpoint matches_from (team_names : list string) (teams_per_match : nat)
    (n : nat) (st : state) : list Match :=
  match n with
  | 0 => []
  | S n' =>
      next_match team_names teams_per_match st
      :: matches_from team_names teams_per_match n'
           (next_state team_names teams_per_match st)
  end.

Fixpoint state_after (team_names : list string) (teams_per_match : nat)
    (n : nat) (st : state) : state :=
  match n with
  | 0 => st
  | S n' =>
      state_after team_names teams_per_match n'
        (next_state team_names teams_per_match st)
  end.

Fixpoint days_from (team_names : list string) (teams_per_match matches_per_day : nat)
    (days : list nat) (st : state) : list Day :=
  match days with
  | [] => []
  | d :: days' =>
      mkDay (d + 1) (matches_from team_names teams_per_match matches_per_day st)
      :: days_from team_names teams_per_match matches_per_day days'
           (state_after team_names teams_per_match matches_per_day st)
  end.

(** ** Predicates of the properties *)

(** Every team of the roster is a key of the dict. *)
Definition keys_cover (team_names : list string) (d : gmap string nat) : Prop :=
  ∀ t, t ∈ team_names → is_Some (d !! t).

(** The values of the dict, its largest and its smallest value. *)
Definition dict_values (d : gmap string nat) : list nat :=
  (map_to_list d).*2.

Definition min_list (l : list nat) : nat :=
  match l with
  | [] => 0
  | x :: l' => foldr Nat.min x l'
  end.

Definition max_count (d : gmap string nat) : nat := max_list (dict_values d).

Definition min_count (d : gmap string nat) : nat := min_list (dict_values d).

(** Any two teams of the dict differ by at most one match. *)
Definition balanced (d : gmap string nat) : Prop :=
  ∀ t u c1 c2, d !! t = Some c1 → d !! u = Some c2 → c1 ≤ c2 + 1.

(** The keys of the dict are the teams of the roster. *)
Definition keys_exact (team_names : list string) (d : gmap string nat) : Prop :=
  ∀ t, is_Some (d !! t) ↔ t ∈ team_names.

(** What holds of the counts after every match. *)
Definition snapshot_ok (team_names : list string) (d : gmap string nat) : Prop :=
  keys_exact team_names d ∧ balanced d.

(** The first match of a schedule, in day order. *)
Definition first_match (schedule : list Day) : option Match :=
  head (all_matches schedule).

(** Ascending order of the decorated list. *)
Definition key_le (x y : nat * string) : Prop := x.1 ≤ y.1.

(** ** Closed forms of the run *)

(** The cyclic window of the roster that starts [played] places after its
    head: the teams of a match formed once [played] places of earlier
    matches were filled. *)
Definition window (team_names : list string) (teams_per_match played : nat)
  : list string :=
  take teams_per_match (rotate played team_names).

(** The counts once [played] places were filled going round the roster:
    the team at position [j] has one match more than the full rounds when
    the current round already reached it. *)
Definition rotation_counts (team_names : list string) (played : nat)
    (d : gmap string nat) : Prop :=
  ∀ j t, team_names !! j = Some t →
    d !! t = Some (played / length team_names
                   + (if decide (j < played `mod` length team_names) then 1 else 0)).

(** The number of places a team takes in the matches of a schedule. *)
Definition appearances (t : string) (schedule : list Day) : nat :=
  length (filter (t =.) (concat (teams <$> all_matches schedule))).

(** ** The form and the button (lines 41-59 and 110-176)

    Dates are proleptic ordinals ([date.toordinal]): adding a
    [timedelta(days=k)] adds [k].  [strftime] is a parameter
    [format_date] of the definitions that print a date. *)

(** [total_matches = tournament_days * matches_per_day] (line 42) *)
Definition total_matches (tournament_days matches_per_day : nat) : nat :=
  tournament_days * matches_per_day.

(** [end_date = start_date + timedelta(days=tournament_days - 1)] (line 38) *)
Definition end_date (start_date : Z) (tournament_days : nat) : Z :=
  (start_date + (Z.of_nat tournament_days - 1))%Z.

(** The proposed content of the name field of team [i] (from 0):
    [f"Team {i+1}"] (line 55). *)
Definition default_name (i : nat) : string :=
  "Team " +:+ pretty (i + 1).

(** The list [team_names] that the loop of lines 53-56 builds from the
    contents of the [total_teams] name fields. *)
Definition collect_names (total_teams : nat) (field : nat → string) : list string :=
  field <$> seq 0 total_teams.

(** [len(set(team_names)) == total_teams] (lines 58 and 111) *)
Definition names_unique (team_names : list string) (total_teams : nat) : bool :=
  bool_decide (size (list_to_set team_names : gset string) = total_teams).

(** [", ".join(teams)] (lines 135 and 143) *)
Definition join_teams (l : list string) : string :=
  String.concat ", " l.

(** A row of [csv_rows] (lines 139-144). *)
Record CsvRow : Type := mkCsvRow {
  csv_day : string;
  csv_date : string;
  csv_match_id : string;
  csv_teams : string
}.

(** The row of one match of the day [day_num]; the date is
    [start_date + timedelta(days=day_num-1)] (line 126). *)
Definition csv_row (format_date : Z → string) (start_date : Z)
    (day_num : nat) (m : Match) : CsvRow :=
  mkCsvRow ("Day " +:+ pretty day_num)
           (format_date (start_date + (Z.of_nat day_num - 1))%Z)
           (pretty (match_id m))
           (join_teams (teams m)).

(** The two loops of lines 121-144, for [csv_rows]. *)
Definition csv_rows (format_date : Z → string) (start_date : Z)
    (schedule : list Day) : list CsvRow :=
  concat ((λ dr, csv_row format_date start_date (day dr) <$> matches dr) <$> schedule).

(** What the button shows: the schedule with its summary and export
    rows, or the error of line 176. *)
Inductive shown : Type :=
  | ScheduleShown (schedule : list Day) (counts : gmap string nat)
                  (rows : list CsvRow)
  | ErrorShown.

(** The handler of the button (lines 110-176). *)
Definition on_generate (rng : Rng) (format_date : Z → string) (start_date : Z)
    (team_names : list string)
    (total_teams teams_per_match tournament_days matches_per_day : nat)
  : result shown :=
  if names_unique team_names total_teams
  then
    '(schedule, counts) ←
      generate_schedule rng team_names teams_per_match tournament_days matches_per_day;
    Ok (ScheduleShown schedule counts (csv_rows format_date start_date schedule))
  else Ok ErrorShown.

(** A name without a comma. *)
Fixpoint comma_free (s : string) : Prop :=
  match s with
  | EmptyString => True
  | String c s' => c ≠ ","%char ∧ comma_free s'
  end.

(** ** The model on small inputs *)

Example sort_stable_keeps_ties :
  sort_stable [(1, "a"); (0, "b"); (1, "c"); (0, "d")]
  = [(0, "b"); (0, "d"); (1, "a"); (1, "c")].
Proof. reflexivity. Qed.

Example sorted_missing_key :
  sorted ["a"; "b"] {["a" := 0]} = Raise KeyError.
Proof. reflexivity. Qed.

Example sample_two_of_three :
  sample (λ _, 0) 0 ["a"; "b"; "c"] 2 = Ok (["a"; "c"], 2).
Proof. reflexivity. Qed.

Example sample_too_many (rng : Rng) :
  sample rng 0 ["a"] 2 = Raise ValueError.
Proof. reflexivity. Qed.

(** Four teams, three per match: the team left out of a match comes
    first in the next one. *)
Example three_of_four (rng : Rng) :
  generate_schedule rng ["a"; "b"; "c"; "d"] 3 2 1
  = Ok ([mkDay 1 [mkMatch 1 ["a"; "b"; "c"]]; mkDay 2 [mkMatch 2 ["d"; "a"; "b"]]],
        dict_of_pairs [("a", 2); ("b", 2); ("c", 1); ("d", 1)]).
Proof. vm_compute. reflexivity. Qed.

(** ** Facts about the stable sort *)

Lemma insert_stable_perm x l : insert_stable x l ≡ₚ x :: l.
Proof.
  induction l as [|y l IH]; simpl; [done|].
  case_decide; [done|]. rewrite IH. apply Permutation_swap.
Qed.

Lemma sort_stable_perm l : sort_stable l ≡ₚ l.
Proof.
  induction l as [|x l IH]; simpl; [done|].
  rewrite insert_stable_perm. by rewrite IH.
Qed.

Lemma insert_stable_sorted x l :
  StronglySorted key_le l → StronglySorted key_le (insert_stable x l).
Proof.
  induction 1 as [|y l Hl IH Hy]; simpl.
  - repeat constructor.
  - case_decide as Hxy.
    + constructor; [by constructor|].
      constructor; [done|].
      eapply Forall_impl; [exact Hy|]. unfold key_le. intros; lia.
    + constructor; [done|].
      rewrite insert_stable_perm. constructor; [unfold key_le; lia|done].
Qed.

Lemma sort_stable_sorted l : StronglySorted key_le (sort_stable l).
Proof.
  induction l as [|x l IH]; simpl; [constructor|].
  by apply insert_stable_sorted.
Qed.

(** A list that is already in ascending key order is left as it is: the
    sort is stable, equal keys keep their order. *)
Lemma sort_stable_id l : StronglySorted key_le l → sort_stable l = l.
Proof.
  induction 1 as [|x l Hl IH Hx]; simpl; [done|].
  rewrite IH. destruct l as [|y l]; simpl; [done|].
  apply Forall_cons in Hx as [Hxy _]. unfold key_le in Hxy.
  by rewrite decide_True.
Qed.

(** Stability: the elements with a given key keep their relative order. *)
Lemma insert_stable_filter (k : nat) x l :
  filter (λ y, y.1 = k) (insert_stable x l) = filter (λ y, y.1 = k) (x :: l).
Proof.
  induction l as [|y l IH]; simpl; [done|].
  case_decide as Hxy; [done|].
  rewrite !filter_cons in *. simpl in *.
  destruct (decide (y.1 = k)), (decide (x.1 = k)); simplify_eq; try lia;
    by rewrite ?IH.
Qed.

Lemma sort_stable_filter (k : nat) l :
  filter (λ y, y.1 = k) (sort_stable l) = filter (λ y, y.1 = k) l.
Proof.
  induction l as [|x l IH]; simpl; [done|].
  by rewrite insert_stable_filter, !filter_cons, IH.
Qed.

(** A stable sort has one possible result: two lists in ascending key
    order that agree, key by key, on the elements and their order are
    equal.  Whatever stable algorithm [sorted] runs, it returns
    [sort_stable]. *)
Lemma stable_sorted_unique (l1 l2 : list (nat * string)) :
  StronglySorted key_le l1 → StronglySorted key_le l2 →
  (∀ k : nat, filter (λ y, y.1 = k) l1 = filter (λ y, y.1 = k) l2) →
  l1 = l2.
Proof.
  intros H1. revert l2. induction H1 as [|x l1 Hl1 IH Hx]; intros l2 H2 Hf.
  - destruct l2 as [|y l2]; [done|].
    specialize (Hf y.1). rewrite filter_cons_True in Hf by done. done.
  - destruct H2 as [|y l2 Hl2 Hy].
    { specialize (Hf x.1). rewrite filter_cons_True in Hf by done. done. }
    assert (x.1 = y.1) as Hxy.
    { assert (x ∈ y :: l2) as Hin.
      { eapply (list_elem_of_filter (λ z, z.1 = x.1)). rewrite <-Hf.
        rewrite filter_cons_True by done. left. }
      assert (y ∈ x :: l1) as Hin'.
      { eapply (list_elem_of_filter (λ z, z.1 = y.1)). rewrite Hf.
        rewrite filter_cons_True by done. left. }
      rewrite Forall_forall in Hx, Hy. unfold key_le in *.
      apply elem_of_cons in Hin as [->|Hin]; [done|].
      apply elem_of_cons in Hin' as [->|Hin']; [done|].
      specialize (Hx _ Hin'). specialize (Hy _ Hin). lia. }
    pose proof (Hf x.1) as Hfx.
    rewrite !filter_cons_True in Hfx by done. injection Hfx as -> Hfx.
    f_equal. apply IH; [done|]. intros k. specialize (Hf k).
    rewrite !filter_cons in Hf. case_decide; [by simplify_eq|done].
Qed.

Lemma sort_stable_unique (l l' : list (nat * string)) :
  StronglySorted key_le l' →
  (∀ k : nat, filter (λ y, y.1 = k) l' = filter (λ y, y.1 = k) l) →
  l' = sort_stable l.
Proof.
  intros Hs Hf. apply stable_sorted_unique; [done|apply sort_stable_sorted|].
  intros k. by rewrite sort_stable_filter.
Qed.

(** ** The sorted roster *)

Lemma redecorate (d : gmap string nat) (dl : list (nat * string)) :
  Forall (λ p, p.1 = count_of d p.2) dl →
  (λ t, (count_of d t, t)) <$> dl.*2 = dl.
Proof.
  induction 1 as [|[c t] dl Hp _ IH]; csimpl in *; [done|].
  by rewrite IH, Hp.
Qed.

Lemma sort_stable_decorated (d : gmap string nat) (l : list string) :
  (λ t, (count_of d t, t)) <$> sorted_by_count l d
  = sort_stable ((λ t, (count_of d t, t)) <$> l).
Proof.
  unfold sorted_by_count. apply redecorate.
  rewrite sort_stable_perm. by apply Forall_fmap, Forall_true.
Qed.

Lemma undecorate (d : gmap string nat) (l : list string) :
  ((λ t, (count_of d t, t)) <$> l).*2 = l.
Proof. induction l as [|t l IH]; csimpl; by rewrite ?IH. Qed.

Lemma sorted_by_count_perm (l : list string) (d : gmap string nat) :
  sorted_by_count l d ≡ₚ l.
Proof.
  unfold sorted_by_count. rewrite sort_stable_perm. by rewrite undecorate.
Qed.

Lemma StronglySorted_fmap_inv {A B} (f : A → B) (R : relation B) (l : list A) :
  StronglySorted R (f <$> l) → StronglySorted (λ x y, R (f x) (f y)) l.
Proof.
  induction l as [|x l IH]; csimpl; [constructor|].
  intros [Hx Hl]%StronglySorted_cons. constructor; [by apply IH|].
  rewrite Forall_fmap in Hx. eapply Forall_impl; [exact Hx|]. by intros y Hy.
Qed.

Lemma sorted_by_count_ascending (l : list string) (d : gmap string nat) :
  StronglySorted (λ t u, count_of d t ≤ count_of d u) (sorted_by_count l d).
Proof.
  apply (StronglySorted_fmap_inv (λ t, (count_of d t, t)) key_le).
  rewrite sort_stable_decorated. apply sort_stable_sorted.
Qed.

(** A roster already in ascending count order keeps its order. *)
Lemma sorted_by_count_id (l : list string) (d : gmap string nat) :
  StronglySorted (λ t u, count_of d t ≤ count_of d u) l →
  sorted_by_count l d = l.
Proof.
  intros Hl. unfold sorted_by_count. rewrite sort_stable_id.
  - apply undecorate.
  - by apply (StronglySorted_fmap (λ t, (count_of d t, t)) _ key_le) in Hl.
Qed.

Lemma selection_length (l : list string) (k : nat) (d : gmap string nat) :
  k ≤ length l → length (selection l k d) = k.
Proof.
  intros Hk. unfold selection. apply length_take_le.
  by rewrite (Permutation_length (sorted_by_count_perm l d)).
Qed.

Lemma selection_subseteq (l : list string) (k : nat) (d : gmap string nat) :
  selection l k d ⊆ l.
Proof.
  intros t Ht. unfold selection in Ht.
  rewrite <-(sorted_by_count_perm l d). by eapply subseteq_take.
Qed.

Lemma selection_NoDup (l : list string) (k : nat) (d : gmap string nat) :
  NoDup l → NoDup (selection l k d).
Proof.
  intros Hl. unfold selection.
  rewrite <-(sorted_by_count_perm l d) in Hl.
  rewrite <-(take_drop k) in Hl. by apply NoDup_app in Hl as [? _].
Qed.

(** The teams that are left out have played at least as much as the
    teams that are selected. *)
Lemma selection_least_used (l : list string) (k : nat) (d : gmap string nat) t u :
  t ∈ selection l k d → u ∈ l → u ∉ selection l k d →
  count_of d t ≤ count_of d u.
Proof.
  intros Ht Hu Hnu. unfold selection in *.
  pose proof (sorted_by_count_ascending l d) as Hs.
  rewrite <-(take_drop k (sorted_by_count l d)) in Hs.
  eapply (StronglySorted_app_1_elem_of _ _ _ t u) in Hs; [done|done|].
  rewrite <-(sorted_by_count_perm l d) in Hu.
  rewrite <-(take_drop k (sorted_by_count l d)) in Hu.
  apply elem_of_app in Hu as [|]; done.
Qed.

(** ** The dict *)

Lemma subscript_ok (d : gmap string nat) t :
  is_Some (d !! t) → subscript d t = Ok (count_of d t).
Proof. intros [c Hc]. unfold subscript, count_of. by rewrite Hc. Qed.

Lemma count_of_insert (d : gmap string nat) t u c :
  count_of (<[t := c]> d) u = if decide (t = u) then c else count_of d u.
Proof. unfold count_of. rewrite lookup_insert. by case_decide. Qed.

Lemma keys_cover_insert l (d : gmap string nat) t c :
  keys_cover l d → keys_cover l (<[t := c]> d).
Proof. intros H u Hu. apply lookup_insert_is_Some'. right. by apply H. Qed.

Lemma keys_cover_cons t l (d : gmap string nat) :
  keys_cover (t :: l) d ↔ is_Some (d !! t) ∧ keys_cover l d.
Proof.
  unfold keys_cover. split.
  - intros H. split; [apply H; left|intros u Hu; apply H; by right].
  - intros [Ht H] u [->|Hu]%elem_of_cons; auto.
Qed.

Lemma keys_cover_subseteq l1 l2 (d : gmap string nat) :
  l1 ⊆ l2 → keys_cover l2 d → keys_cover l1 d.
Proof. intros Hl H t Ht. apply H, Hl, Ht. Qed.

Lemma dict_of_pairs_zeros_lookup (l : list string) t :
  dict_of_pairs (zip l (replicate (length l) 0)) !! t
  = if decide (t ∈ l) then Some 0 else None.
Proof.
  unfold dict_of_pairs. rewrite zip_with_replicate_r by done.
  assert (∀ (d : gmap string nat),
    foldl (λ d p, <[p.1 := p.2]> d) d (flip pair 0 <$> l) !! t
    = if decide (t ∈ l) then Some 0 else d !! t) as H.
  { induction l as [|u l IH]; intros d; csimpl.
    - done.
    - rewrite IH, lookup_insert. simpl.
      repeat case_decide; simplify_eq; try done.
      all: rewrite elem_of_cons in *; naive_solver. }
  rewrite H. by rewrite lookup_empty.
Qed.

Lemma bump_is_Some (d : gmap string nat) l t :
  is_Some (bump d l !! t) ↔ is_Some (d !! t) ∨ t ∈ l.
Proof.
  revert d. induction l as [|u l IH]; intros d; simpl.
  - rewrite elem_of_nil. naive_solver.
  - change (bump d (u :: l)) with (bump (<[u := S (count_of d u)]> d) l).
    rewrite IH, lookup_insert_is_Some', elem_of_cons. naive_solver.
Qed.

Lemma keys_cover_bump l1 (d : gmap string nat) l :
  keys_cover l1 d → keys_cover l1 (bump d l).
Proof. intros H t Ht. apply bump_is_Some. left. by apply H. Qed.

Lemma count_of_bump (d : gmap string nat) l t :
  count_of (bump d l) t = count_of d t + length (filter (t =.) l).
Proof.
  revert d. induction l as [|u l IH]; intros d; simpl; [lia|].
  change (bump d (u :: l)) with (bump (<[u := S (count_of d u)]> d) l).
  rewrite IH, count_of_insert, filter_cons.
  repeat case_decide; simplify_eq; simpl; lia.
Qed.

Lemma occurrences_NoDup (l : list string) t :
  NoDup l → length (filter (t =.) l) = if decide (t ∈ l) then 1 else 0.
Proof.
  induction 1 as [|u l Hu Hl IH]; [done|].
  rewrite filter_cons.
  repeat case_decide; simplify_eq; simpl; rewrite ?IH; try done.
  all: rewrite elem_of_cons in *; naive_solver.
Qed.

Lemma increment_all_ok (d : gmap string nat) l :
  keys_cover l d → increment_all d l = Ok (bump d l).
Proof.
  revert d. induction l as [|t l IH]; intros d; [done|].
  intros [Ht Hl]%keys_cover_cons. simpl.
  rewrite subscript_ok by done. simpl.
  apply IH. by apply keys_cover_insert.
Qed.

Lemma decorate_ok (d : gmap string nat) l :
  keys_cover l d → decorate d l = Ok ((λ t, (count_of d t, t)) <$> l).
Proof.
  induction l as [|t l IH]; [done|].
  intros [Ht Hl]%keys_cover_cons. simpl.
  rewrite subscript_ok by done. simpl. by rewrite IH.
Qed.

Lemma sorted_ok l (d : gmap string nat) :
  keys_cover l d → sorted l d = Ok (sorted_by_count l d).
Proof. intros H. unfold sorted. by rewrite decorate_ok. Qed.

Lemma sum_values_insert (d : gmap string nat) t v :
  sum_values (<[t := v]> d) = v + sum_values (delete t d).
Proof.
  rewrite <-insert_delete_eq. unfold sum_values.
  rewrite map_fold_insert_L; [done| |apply lookup_delete_eq].
  intros; lia.
Qed.

Lemma sum_values_increment (d : gmap string nat) t :
  sum_values (<[t := S (count_of d t)]> d) = S (sum_values d).
Proof.
  rewrite sum_values_insert. unfold count_of.
  destruct (d !! t) as [c|] eqn:Hc; simpl.
  - unfold sum_values at 2.
    rewrite (map_fold_delete_L _ _ t c d); [done| |done]. intros; lia.
  - by rewrite delete_id.
Qed.

Lemma sum_values_bump (d : gmap string nat) l :
  sum_values (bump d l) = sum_values d + length l.
Proof.
  revert d. induction l as [|t l IH]; intros d; simpl; [lia|].
  change (bump d (t :: l)) with (bump (<[t := S (count_of d t)]> d) l).
  rewrite IH, sum_values_increment. lia.
Qed.

Lemma sum_values_zeros (d : gmap string nat) :
  (∀ t c, d !! t = Some c → c = 0) → sum_values d = 0.
Proof.
  unfold sum_values.
  apply (map_fold_weak_ind
    (λ r (m : gmap string nat), (∀ t c, m !! t = Some c → c = 0) → r = 0)).
  - done.
  - intros t c m r Hm IH H.
    rewrite (H t c) by apply lookup_insert_eq. simpl. apply IH.
    intros u cu Hu. apply (H u). rewrite lookup_insert_ne; [done|].
    intros ->. congruence.
Qed.

Lemma max_list_bound (l : list nat) b :
  (∀ x, x ∈ l → x ≤ b) → max_list l ≤ b.
Proof.
  induction l as [|x l IH]; simpl; intros H; [lia|].
  apply Nat.max_lub; [apply H; left|apply IH; intros; apply H; by right].
Qed.

Lemma min_list_elem_of (l : list nat) : l ≠ [] → min_list l ∈ l.
Proof.
  destruct l as [|x l]; [done|]. intros _. simpl.
  revert x. induction l as [|y l IH]; intros x; simpl; [left|].
  destruct (Nat.min_spec y (foldr Nat.min x l)) as [[_ ->]|[_ ->]].
  - right; left.
  - specialize (IH x). apply elem_of_cons in IH as [->|]; [left|right; by right].
Qed.

(** Pairwise balance bounds the spread of the values. *)
Lemma balanced_spread (d : gmap string nat) :
  balanced d → max_count d ≤ min_count d + 1.
Proof.
  intros Hb. unfold max_count, min_count.
  destruct (dict_values d) as [|x l] eqn:Hv; [simpl; lia|].
  assert (∀ c, c ∈ dict_values d → ∃ t, d !! t = Some c) as Hval.
  { intros c [[t c'] [-> Hc]]%list_elem_of_fmap.
    exists t. by apply elem_of_map_to_list. }
  rewrite <-Hv.
  destruct (Hval (min_list (dict_values d))) as [u Hu].
  { apply min_list_elem_of. by rewrite Hv. }
  apply max_list_bound. intros c [t Ht]%Hval. by eapply Hb.
Qed.

(** ** The loops agree with the exception-free run *)

Section Refinement.

Variable rng : Rng.
Variable team_names : list string.
Variable teams_per_match matches_per_day : nat.
Hypothesis enough_teams : teams_per_match ≤ length team_names.

Local Abbreviation next_match' := (next_match team_names teams_per_match).
Local Abbreviation next_state' := (next_state team_names teams_per_match).
Local Abbreviation matches_from' := (matches_from team_names teams_per_match).
Local Abbreviation state_after' := (state_after team_names teams_per_match).
Local Abbreviation days_from' := (days_from team_names teams_per_match matches_per_day).
Local Abbreviation covered st := (keys_cover team_names (team_match_count st)).

Lemma form_match_ok st :
  covered st →
  form_match rng team_names teams_per_match st = Ok (next_match' st, next_state' st).
Proof using enough_teams.
  intros Hk. unfold form_match. rewrite sorted_ok by done. simpl.
  fold (selection team_names teams_per_match (team_match_count st)).
  rewrite decide_False by (rewrite selection_length; lia). simpl.
  rewrite increment_all_ok; [done|].
  eapply keys_cover_subseteq; [apply selection_subseteq|done].
Qed.

Lemma next_state_covered st : covered st → covered (next_state' st).
Proof. intros Hk. simpl. by apply keys_cover_bump. Qed.

Lemma state_after_covered n st : covered st → covered (state_after' n st).
Proof.
  revert st. induction n as [|n IH]; intros st Hk; simpl; [done|].
  by apply IH, next_state_covered.
Qed.

Lemma day_loop_ok n day_matches st :
  covered st →
  day_loop rng team_names teams_per_match n day_matches st
  = Ok (day_matches ++ matches_from' n st, state_after' n st).
Proof using enough_teams.
  revert day_matches st. induction n as [|n IH]; intros dm st Hk; simpl.
  - by rewrite app_nil_r.
  - rewrite form_match_ok by done. simpl.
    rewrite IH by by apply next_state_covered.
    by rewrite <-app_assoc.
Qed.

Lemma state_after_add a b st :
  state_after' (a + b) st = state_after' b (state_after' a st).
Proof. revert st. induction a as [|a IH]; intros st; simpl; [done|apply IH]. Qed.

Lemma matches_from_add a b st :
  matches_from' (a + b) st
  = matches_from' a st ++ matches_from' b (state_after' a st).
Proof.
  revert st. induction a as [|a IH]; intros st; simpl; [done|].
  by rewrite IH.
Qed.

Lemma schedule_loop_ok days schedule st :
  covered st →
  schedule_loop rng team_names teams_per_match matches_per_day days schedule st
  = Ok (schedule ++ days_from' days st,
        state_after' (length days * matches_per_day) st).
Proof using enough_teams.
  revert schedule st. induction days as [|d days IH]; intros sch st Hk; simpl.
  - by rewrite app_nil_r.
  - rewrite day_loop_ok by done. simpl.
    rewrite IH by by apply state_after_covered.
    by rewrite <-app_assoc, state_after_add.
Qed.

Lemma initial_state_covered : covered (initial_state team_names).
Proof.
  intros t Ht. simpl. rewrite dict_of_pairs_zeros_lookup.
  by rewrite decide_True.
Qed.

Lemma run_ok tournament_days :
  run rng team_names teams_per_match tournament_days matches_per_day
  = Ok (days_from' (seq 0 tournament_days) (initial_state team_names),
        state_after' (tournament_days * matches_per_day) (initial_state team_names)).
Proof using enough_teams.
  unfold run. rewrite schedule_loop_ok by apply initial_state_covered.
  by rewrite length_seq.
Qed.

Lemma generate_schedule_ok tournament_days :
  generate_schedule rng team_names teams_per_match tournament_days matches_per_day
  = Ok (days_from' (seq 0 tournament_days) (initial_state team_names),
        team_match_count
          (state_after' (tournament_days * matches_per_day) (initial_state team_names))).
Proof using enough_teams. unfold generate_schedule. by rewrite run_ok. Qed.

End Refinement.

(** ** Properties of the exception-free run *)

Section Flat.

Variable team_names : list string.
Variable teams_per_match matches_per_day : nat.

Local Abbreviation next_state' := (next_state team_names teams_per_match).
Local Abbreviation matches_from' := (matches_from team_names teams_per_match).
Local Abbreviation state_after' := (state_after team_names teams_per_match).
Local Abbreviation days_from' := (days_from team_names teams_per_match matches_per_day).

Lemma matches_from_length n st : length (matches_from' n st) = n.
Proof. revert st. induction n as [|n IH]; intros st; simpl; by rewrite ?IH. Qed.

Lemma days_from_length days st : length (days_from' days st) = length days.
Proof. revert st. induction days as [|d ds IH]; intros st; simpl; by rewrite ?IH. Qed.

Lemma days_from_matches_length days st :
  Forall (λ dr, length (matches dr) = matches_per_day) (days_from' days st).
Proof.
  revert st. induction days as [|d ds IH]; intros st; simpl; constructor.
  - apply matches_from_length.
  - apply IH.
Qed.

Lemma days_from_numbers days st :
  day <$> days_from' days st = (λ d, d + 1) <$> days.
Proof. revert st. induction days as [|d ds IH]; intros st; csimpl; by rewrite ?IH. Qed.

Lemma all_matches_days_from days st :
  all_matches (days_from' days st)
  = matches_from' (length days * matches_per_day) st.
Proof.
  unfold all_matches. revert st.
  induction days as [|d ds IH]; intros st; csimpl; [done|].
  by rewrite IH, matches_from_add.
Qed.

Lemma match_ids_all_matches (schedule : list Day) :
  match_ids schedule = match_id <$> all_matches schedule.
Proof.
  unfold match_ids, all_matches.
  induction schedule as [|dr sch IH]; csimpl; [done|].
  by rewrite IH, fmap_app.
Qed.

Lemma matches_from_ids n st :
  match_id <$> matches_from' n st = seq (next_match_id st) n.
Proof. revert st. induction n as [|n IH]; intros st; csimpl; by rewrite ?IH. Qed.

Lemma matches_from_teams_length n st :
  teams_per_match ≤ length team_names →
  Forall (λ m, length (teams m) = teams_per_match) (matches_from' n st).
Proof.
  intros Hk. revert st. induction n as [|n IH]; intros st; simpl; constructor.
  - by apply selection_length.
  - apply IH.
Qed.

Lemma matches_from_NoDup n st :
  NoDup team_names →
  Forall (λ m, NoDup (teams m)) (matches_from' n st).
Proof.
  intros Hk. revert st. induction n as [|n IH]; intros st; simpl; constructor.
  - by apply selection_NoDup.
  - apply IH.
Qed.

Lemma matches_from_subseteq n st :
  Forall (λ m, teams m ⊆ team_names) (matches_from' n st).
Proof.
  revert st. induction n as [|n IH]; intros st; simpl; constructor.
  - by apply selection_subseteq.
  - apply IH.
Qed.

Lemma state_after_sum n st :
  teams_per_match ≤ length team_names →
  sum_values (team_match_count (state_after' n st))
  = sum_values (team_match_count st) + n * teams_per_match.
Proof.
  intros Hk. revert st. induction n as [|n IH]; intros st; simpl; [lia|].
  rewrite IH. simpl. rewrite sum_values_bump, selection_length by done. lia.
Qed.

Lemma state_after_snapshots_length n st :
  length (snapshots (state_after' n st)) = length (snapshots st) + n.
Proof.
  revert st. induction n as [|n IH]; intros st; simpl; [lia|].
  rewrite IH. simpl. rewrite length_app. simpl. lia.
Qed.

Lemma state_after_last_snapshot n st :
  last (snapshots (state_after' (S n) st))
  = Some (team_match_count (state_after' (S n) st)).
Proof.
  revert st. induction n as [|n IH]; intros st.
  - simpl. by rewrite last_snoc.
  - change (state_after' (S (S n)) st) with (state_after' (S n) (next_state' st)).
    apply IH.
Qed.

End Flat.

(** The last entry of the history is the dict that is returned. *)
Lemma count_history_final (rng : Rng) (team_names : list string)
    (teams_per_match tournament_days matches_per_day : nat) :
  teams_per_match ≤ length team_names →
  1 ≤ tournament_days → 1 ≤ matches_per_day →
  ∃ schedule counts history,
    generate_schedule rng team_names teams_per_match tournament_days matches_per_day
    = Ok (schedule, counts)
    ∧ count_history rng team_names teams_per_match tournament_days matches_per_day
      = Ok history
    ∧ last history = Some counts.
Proof.
  intros Hk Hd Hm. eexists _, _, _.
  split; [by apply generate_schedule_ok|].
  unfold count_history. rewrite run_ok by done. simpl. split; [done|].
  destruct (tournament_days * matches_per_day) as [|n] eqn:Hn; [nia|].
  apply state_after_last_snapshot.
Qed.

(** ** Balance of the counts *)

Section Balance.

Variable team_names : list string.
Variable teams_per_match : nat.
Hypothesis unique_names : NoDup team_names.

Local Abbreviation keys_exact' := (keys_exact team_names).
Local Abbreviation snapshot_ok' := (snapshot_ok team_names).
Local Abbreviation next_state' := (next_state team_names teams_per_match).
Local Abbreviation state_after' := (state_after team_names teams_per_match).

Lemma lookup_count_of (d : gmap string nat) t c :
  d !! t = Some c → count_of d t = c.
Proof. unfold count_of. by intros ->. Qed.

Lemma bump_selection_keys (d : gmap string nat) :
  keys_exact' d → keys_exact' (bump d (selection team_names teams_per_match d)).
Proof.
  unfold keys_exact. intros Hk t. rewrite bump_is_Some, Hk.
  pose proof (selection_subseteq team_names teams_per_match d t). naive_solver.
Qed.

(** Incrementing the least-used teams keeps any two counts within one
    match of each other. *)
Lemma bump_selection_balanced (d : gmap string nat) :
  keys_exact' d → balanced d →
  balanced (bump d (selection team_names teams_per_match d)).
Proof using unique_names.
  intros Hk Hb t u c1 c2 Ht Hu.
  pose proof (bump_selection_keys d Hk) as Hk'. unfold keys_exact in Hk, Hk'.
  assert (t ∈ team_names) as Htn by (apply Hk'; eauto).
  assert (u ∈ team_names) as Hun by (apply Hk'; eauto).
  apply lookup_count_of in Ht, Hu. subst c1 c2.
  rewrite !count_of_bump.
  rewrite !occurrences_NoDup by by apply selection_NoDup.
  destruct (proj2 (Hk t) Htn) as [ct Hct], (proj2 (Hk u) Hun) as [cu Hcu].
  pose proof (Hb t u ct cu Hct Hcu) as Htu.
  rewrite (lookup_count_of _ _ _ Hct), (lookup_count_of _ _ _ Hcu).
  destruct (decide (t ∈ _)) as [Hts|Hts], (decide (u ∈ _)) as [Hus|Hus]; try lia.
  pose proof (selection_least_used _ _ _ t u Hts Hun Hus) as Hle.
  rewrite (lookup_count_of _ _ _ Hct), (lookup_count_of _ _ _ Hcu) in Hle. lia.
Qed.

Lemma state_after_snapshots n st :
  snapshot_ok' (team_match_count st) →
  Forall snapshot_ok' (snapshots st) →
  snapshot_ok' (team_match_count (state_after' n st))
  ∧ Forall snapshot_ok' (snapshots (state_after' n st)).
Proof using unique_names.
  revert st. induction n as [|n IH]; intros st Hd Hs; simpl; [done|].
  assert (snapshot_ok' (team_match_count (next_state' st))) as Hd'.
  { destruct Hd as [Hk Hb]. split; simpl.
    - by apply bump_selection_keys.
    - by apply bump_selection_balanced. }
  apply IH; [done|]. simpl. apply Forall_app. split; [done|].
  by constructor.
Qed.

Lemma initial_state_snapshot_ok :
  snapshot_ok' (team_match_count (initial_state team_names)).
Proof.
  split; simpl.
  - intros t. simpl. rewrite dict_of_pairs_zeros_lookup.
    case_decide; split; try done.
  - intros t u c1 c2. rewrite !dict_of_pairs_zeros_lookup.
    repeat case_decide; intros; simplify_eq. lia.
Qed.

End Balance.

(** ** Equal counts: the roster order decides *)

Lemma StronglySorted_pairwise {A} (R : relation A) (l : list A) :
  (∀ x y, x ∈ l → y ∈ l → R x y) → StronglySorted R l.
Proof.
  induction l as [|x l IH]; intros H; constructor.
  - apply IH. intros y z Hy Hz. apply H; by right.
  - apply Forall_forall. intros y Hy. apply H; [left|by right].
Qed.

Lemma selection_equal_counts (l : list string) (k : nat) (d : gmap string nat) :
  (∀ t u, t ∈ l → u ∈ l → count_of d t = count_of d u) →
  selection l k d = take k l.
Proof.
  intros H. unfold selection. rewrite sorted_by_count_id; [done|].
  apply StronglySorted_pairwise. intros t u Ht Hu. by rewrite (H t u).
Qed.

Lemma initial_state_counts (l : list string) t :
  count_of (team_match_count (initial_state l)) t = 0.
Proof.
  unfold count_of. simpl. rewrite dict_of_pairs_zeros_lookup. by case_decide.
Qed.

(** ** More teams per match than teams *)

Section TooFewTeams.

Variable rng : Rng.
Variable team_names : list string.
Variable teams_per_match matches_per_day : nat.
Hypothesis too_few : length team_names < teams_per_match.

(** The primary selection is the whole roster, so nothing is left to
    draw from. *)
Lemma remaining_teams_empty (d : gmap string nat) :
  filter (λ t, t ∉ take teams_per_match (sorted_by_count team_names d)) team_names = [].
Proof using too_few.
  rewrite take_ge
    by (rewrite (Permutation_length (sorted_by_count_perm team_names d)); lia).
  apply elem_of_nil_inv. intros t [Hn Ht]%list_elem_of_filter. apply Hn.
  by rewrite sorted_by_count_perm.
Qed.

Lemma form_match_raises st :
  keys_cover team_names (team_match_count st) →
  form_match rng team_names teams_per_match st = Raise ValueError.
Proof using too_few.
  intros Hk. unfold form_match. rewrite sorted_ok by done. simpl.
  pose proof (Permutation_length (sorted_by_count_perm team_names (team_match_count st))) as Hlen.
  rewrite decide_True by (rewrite length_take; lia).
  rewrite remaining_teams_empty. unfold sample.
  rewrite decide_False; [done|]. rewrite length_take. simpl. lia.
Qed.

Lemma generate_schedule_raises tournament_days :
  1 ≤ tournament_days → 1 ≤ matches_per_day →
  generate_schedule rng team_names teams_per_match tournament_days matches_per_day
  = Raise ValueError.
Proof using too_few.
  intros Hd Hm. unfold generate_schedule, run.
  destruct tournament_days as [|days]; [lia|].
  destruct matches_per_day as [|mpd]; [lia|]. simpl.
  rewrite form_match_raises; [done|].
  intros t Ht. simpl. rewrite dict_of_pairs_zeros_lookup. by rewrite decide_True.
Qed.

End TooFewTeams.

Lemma Forall_all_matches (P : Match → Prop) (schedule : list Day) :
  Forall P (all_matches schedule)
  ↔ Forall (λ dr, Forall P (matches dr)) schedule.
Proof. unfold all_matches. by rewrite Forall_concat, Forall_fmap. Qed.

(** * The shape of the schedule *)

(** C1: for a roster and settings with
    [2 <= teams_per_match <= len(roster)], [tournament_days >= 1] and
    [matches_per_day >= 1], [generate_schedule] returns a schedule of
    exactly [tournament_days] day-records, each of exactly
    [matches_per_day] match-records, each of exactly [teams_per_match]
    teams. *)
Theorem C1_schedule_shape (rng : Rng) (team_names : list string)
    (teams_per_match tournament_days matches_per_day : nat) :
  2 ≤ teams_per_match → teams_per_match ≤ length team_names →
  1 ≤ tournament_days → 1 ≤ matches_per_day →
  ∃ schedule counts,
    generate_schedule rng team_names teams_per_match tournament_days matches_per_day
    = Ok (schedule, counts)
    ∧ length schedule = tournament_days
    ∧ Forall (λ dr, length (matches dr) = matches_per_day) schedule
    ∧ Forall (λ dr, Forall (λ m, length (teams m) = teams_per_match) (matches dr))
        schedule.
Proof.
  intros _ Hk _ _. eexists _, _. split; [by apply generate_schedule_ok|].
  split; [by rewrite days_from_length, length_seq|].
  split; [apply days_from_matches_length|].
  apply Forall_all_matches. rewrite all_matches_days_from.
  by apply matches_from_teams_length.
Qed.

Lemma C1_schedule_shape_witness :
  ∃ schedule counts,
    generate_schedule (λ _, 0) roster10 4 1 2 = Ok (schedule, counts)
    ∧ length schedule = 1
    ∧ Forall (λ dr, length (matches dr) = 2) schedule
    ∧ Forall (λ dr, Forall (λ m, length (teams m) = 4) (matches dr)) schedule.
Proof. apply (C1_schedule_shape (λ _, 0) roster10 4 1 2); simpl; lia. Defined.

(** * The counts add up *)

(** C2: for a roster and settings with [teams_per_match <= len(roster)],
    [tournament_days >= 1] and [matches_per_day >= 1], the values of the
    returned [team_match_count] sum to
    [tournament_days * matches_per_day * teams_per_match]. *)
Theorem C2_count_sum (rng : Rng) (team_names : list string)
    (teams_per_match tournament_days matches_per_day : nat) :
  teams_per_match ≤ length team_names →
  1 ≤ tournament_days → 1 ≤ matches_per_day →
  ∃ schedule counts,
    generate_schedule rng team_names teams_per_match tournament_days matches_per_day
    = Ok (schedule, counts)
    ∧ sum_values counts = tournament_days * matches_per_day * teams_per_match.
Proof.
  intros Hk _ _. eexists _, _. split; [by apply generate_schedule_ok|].
  rewrite state_after_sum by done. simpl.
  rewrite sum_values_zeros; [done|].
  intros t c. rewrite dict_of_pairs_zeros_lookup. case_decide; congruence.
Qed.

Lemma C2_count_sum_witness :
  ∃ schedule counts,
    generate_schedule (λ _, 0) roster10 4 1 2 = Ok (schedule, counts)
    ∧ sum_values counts = 1 * 2 * 4.
Proof. apply (C2_count_sum (λ _, 0) roster10 4 1 2); simpl; lia. Defined.

(** * Balance *)

(** C3: for a roster of unique names and [teams_per_match <= len(roster)],
    after every match of the run (its counts incremented) the largest
    count minus the smallest count over the teams of the roster is at
    most 1.  The history has one entry per formed match, and the keys of
    every entry are the teams of the roster. *)
Theorem C3_balance (rng : Rng) (team_names : list string)
    (teams_per_match tournament_days matches_per_day : nat) :
  NoDup team_names → teams_per_match ≤ length team_names →
  ∃ history,
    count_history rng team_names teams_per_match tournament_days matches_per_day
    = Ok history
    ∧ length history = tournament_days * matches_per_day
    ∧ Forall (λ d, keys_exact team_names d ∧ max_count d - min_count d ≤ 1) history.
Proof.
  intros Hu Hk. eexists. unfold count_history.
  rewrite run_ok by done. simpl. split; [done|].
  split; [by rewrite state_after_snapshots_length|].
  destruct (state_after_snapshots team_names teams_per_match Hu
              (tournament_days * matches_per_day) (initial_state team_names))
    as [_ Hs].
  - apply initial_state_snapshot_ok.
  - constructor.
  - eapply Forall_impl; [exact Hs|]. intros d [Hd Hb]. split; [done|].
    apply balanced_spread in Hb. lia.
Qed.

Lemma C3_balance_witness :
  ∃ history,
    count_history (λ _, 0) roster10 4 3 2 = Ok history
    ∧ length history = 3 * 2
    ∧ Forall (λ d, keys_exact roster10 d ∧ max_count d - min_count d ≤ 1) history.
Proof.
  apply (C3_balance (λ _, 0) roster10 4 3 2).
  - by apply (bool_decide_unpack _).
  - simpl; lia.
Defined.

(** * Match ids *)

(** C4: for a roster and settings with [teams_per_match <= len(roster)],
    [tournament_days >= 1] and [matches_per_day >= 1], the match ids of
    the returned schedule, in day order and within a day in match order,
    are 1, 2, ..., [tournament_days * matches_per_day]. *)
Theorem C4_match_ids (rng : Rng) (team_names : list string)
    (teams_per_match tournament_days matches_per_day : nat) :
  teams_per_match ≤ length team_names →
  1 ≤ tournament_days → 1 ≤ matches_per_day →
  ∃ schedule counts,
    generate_schedule rng team_names teams_per_match tournament_days matches_per_day
    = Ok (schedule, counts)
    ∧ match_ids schedule = seq 1 (tournament_days * matches_per_day).
Proof.
  intros Hk _ _. eexists _, _. split; [by apply generate_schedule_ok|].
  rewrite match_ids_all_matches, all_matches_days_from, matches_from_ids.
  by rewrite length_seq.
Qed.

Lemma C4_match_ids_witness :
  ∃ schedule counts,
    generate_schedule (λ _, 0) roster10 4 3 2 = Ok (schedule, counts)
    ∧ match_ids schedule = seq 1 (3 * 2).
Proof. apply (C4_match_ids (λ _, 0) roster10 4 3 2); simpl; lia. Defined.

(** * No team twice in a match *)

(** C5: for a roster of pairwise distinct names and
    [teams_per_match <= len(roster)], no match-record of the returned
    schedule holds the same team twice. *)
Theorem C5_no_duplicate_team (rng : Rng) (team_names : list string)
    (teams_per_match tournament_days matches_per_day : nat) :
  NoDup team_names → teams_per_match ≤ length team_names →
  ∃ schedule counts,
    generate_schedule rng team_names teams_per_match tournament_days matches_per_day
    = Ok (schedule, counts)
    ∧ Forall (λ dr, Forall (λ m, NoDup (teams m)) (matches dr)) schedule.
Proof.
  intros Hu Hk. eexists _, _. split; [by apply generate_schedule_ok|].
  apply Forall_all_matches. rewrite all_matches_days_from.
  by apply matches_from_NoDup.
Qed.

Lemma C5_no_duplicate_team_witness :
  ∃ schedule counts,
    generate_schedule (λ _, 0) roster10 4 3 2 = Ok (schedule, counts)
    ∧ Forall (λ dr, Forall (λ m, NoDup (teams m)) (matches dr)) schedule.
Proof.
  apply (C5_no_duplicate_team (λ _, 0) roster10 4 3 2).
  - by apply (bool_decide_unpack _).
  - simpl; lia.
Defined.

(** * The example of the specification *)

(** C6: for the roster T1..T10 with 4 teams per match, 1 day and 2
    matches per day, the schedule has one day with two matches, match 1
    with T1..T4 and match 2 with T5..T8, and the final counts are 1 for
    T1..T8 and 0 for T9 and T10. *)
Theorem C6_example (rng : Rng) :
  generate_schedule rng roster10 4 1 2
  = Ok ([mkDay 1 [mkMatch 1 ["T1"; "T2"; "T3"; "T4"];
                  mkMatch 2 ["T5"; "T6"; "T7"; "T8"]]],
        dict_of_pairs [("T1", 1); ("T2", 1); ("T3", 1); ("T4", 1); ("T5", 1);
                       ("T6", 1); ("T7", 1); ("T8", 1); ("T9", 0); ("T10", 0)]).
Proof. vm_compute. reflexivity. Qed.

(** * The first match follows the roster order *)

(** C7: with [teams_per_match <= len(roster)], a match formed while all
    teams have the same count takes the first [teams_per_match] teams in
    roster order; so does the first match of the returned schedule, which
    exists as soon as there is a day and a match per day. *)
Theorem C7_first_match (rng : Rng) (team_names : list string)
    (teams_per_match tournament_days matches_per_day : nat) :
  teams_per_match ≤ length team_names →
  (∀ st,
     keys_cover team_names (team_match_count st) →
     (∀ t u, t ∈ team_names → u ∈ team_names →
        team_match_count st !! t = team_match_count st !! u) →
     ∃ m st',
       form_match rng team_names teams_per_match st = Ok (m, st')
       ∧ teams m = take teams_per_match team_names)
  ∧ ∃ schedule counts,
      generate_schedule rng team_names teams_per_match tournament_days matches_per_day
      = Ok (schedule, counts)
      ∧ (1 ≤ tournament_days → 1 ≤ matches_per_day →
         first_match schedule = Some (mkMatch 1 (take teams_per_match team_names)))
      ∧ (∀ m, first_match schedule = Some m →
         teams m = take teams_per_match team_names).
Proof.
  intros Hk. split.
  - intros st Hc Heq. eexists _, _. split; [by apply form_match_ok|].
    simpl. apply selection_equal_counts.
    intros t u Ht Hu. unfold count_of. by rewrite (Heq t u).
  - eexists _, _. split; [by apply generate_schedule_ok|].
    unfold first_match. rewrite all_matches_days_from, length_seq.
    assert (selection team_names teams_per_match
              (team_match_count (initial_state team_names))
            = take teams_per_match team_names) as Hsel.
    { apply selection_equal_counts. intros. by rewrite !initial_state_counts. }
    destruct (tournament_days * matches_per_day) as [|n] eqn:Hn.
    + split; [intros; lia|done].
    + simpl. unfold next_match. rewrite Hsel. simpl.
      split; [done|]. by intros m [= <-].
Qed.

Lemma C7_first_match_witness :
  (∀ st,
     keys_cover roster10 (team_match_count st) →
     (∀ t u, t ∈ roster10 → u ∈ roster10 →
        team_match_count st !! t = team_match_count st !! u) →
     ∃ m st',
       form_match (λ _, 0) roster10 4 st = Ok (m, st')
       ∧ teams m = take 4 roster10)
  ∧ ∃ schedule counts,
      generate_schedule (λ _, 0) roster10 4 1 2 = Ok (schedule, counts)
      ∧ (1 ≤ 1 → 1 ≤ 2 → first_match schedule = Some (mkMatch 1 (take 4 roster10)))
      ∧ (∀ m, first_match schedule = Some m → teams m = take 4 roster10).
Proof. apply (C7_first_match (λ _, 0) roster10 4 1 2); simpl; lia. Defined.

(** * The fill branch *)

(** C8: the primary selection is shorter than [teams_per_match] exactly
    when the roster is; the fill then draws from an empty remainder.  On
    the ten default names with 16 teams per match, settings the form
    accepts, the run raises [ValueError] and forms no match, whatever the
    random source. *)
Theorem C8_fill_raises (rng : Rng) :
  generate_schedule rng default_names10 16 1 1 = Raise ValueError.
Proof. apply generate_schedule_raises; simpl; lia. Qed.

(** * Determinism *)

(** C9: with [teams_per_match <= len(roster)] the fill branch is not
    taken, and the returned schedule and counts do not depend on the
    random source: two runs on the same roster and settings return the
    same schedule and the same counts. *)
Theorem C9_deterministic (rng1 rng2 : Rng) (team_names : list string)
    (teams_per_match tournament_days matches_per_day : nat) :
  teams_per_match ≤ length team_names →
  ∃ schedule counts,
    generate_schedule rng1 team_names teams_per_match tournament_days matches_per_day
    = Ok (schedule, counts)
    ∧ generate_schedule rng2 team_names teams_per_match tournament_days matches_per_day
      = Ok (schedule, counts).
Proof.
  intros Hk. eexists _, _. split; by apply generate_schedule_ok.
Qed.

Lemma C9_deterministic_witness :
  ∃ schedule counts,
    generate_schedule (λ _, 0) roster10 4 3 2 = Ok (schedule, counts)
    ∧ generate_schedule (λ n, n * n + 7) roster10 4 3 2 = Ok (schedule, counts).
Proof.
  apply (C9_deterministic (λ _, 0) (λ n, n * n + 7) roster10 4 3 2); simpl; lia.
Defined.

(** * When the run raises *)

(** C10: with [tournament_days >= 1], [matches_per_day >= 1] and
    [teams_per_match >= 2], [generate_schedule] raises if and only if
    [teams_per_match > len(roster)]; the exception is the [ValueError] of
    [random.sample] and no schedule is returned; with
    [teams_per_match <= len(roster)] a schedule is returned. *)
Theorem C10_raises_iff (rng : Rng) (team_names : list string)
    (teams_per_match tournament_days matches_per_day : nat) :
  1 ≤ tournament_days → 1 ≤ matches_per_day → 2 ≤ teams_per_match →
  ((∃ e, generate_schedule rng team_names teams_per_match tournament_days
           matches_per_day = Raise e)
   ↔ length team_names < teams_per_match)
  ∧ (length team_names < teams_per_match →
     generate_schedule rng team_names teams_per_match tournament_days matches_per_day
     = Raise ValueError)
  ∧ (teams_per_match ≤ length team_names →
     ∃ schedule counts,
       generate_schedule rng team_names teams_per_match tournament_days
         matches_per_day = Ok (schedule, counts)).
Proof.
  intros Hd Hm _.
  assert (teams_per_match ≤ length team_names →
     ∃ schedule counts,
       generate_schedule rng team_names teams_per_match tournament_days
         matches_per_day = Ok (schedule, counts)) as Hok.
  { intros Hk. eexists _, _. by apply generate_schedule_ok. }
  split; [|split; [|done]].
  - split.
    + intros [e He].
      destruct (decide (length team_names < teams_per_match)) as [|Hn]; [done|].
      destruct Hok as (s & c & Hsc); [lia|congruence].
    + intros Hlt. exists ValueError. by apply generate_schedule_raises.
  - intros Hlt. by apply generate_schedule_raises.
Qed.

Lemma C10_raises_iff_witness :
  ((∃ e, generate_schedule (λ _, 0) default_names10 16 3 4 = Raise e)
   ↔ length default_names10 < 16)
  ∧ (length default_names10 < 16 →
     generate_schedule (λ _, 0) default_names10 16 3 4 = Raise ValueError)
  ∧ (16 ≤ length default_names10 →
     ∃ schedule counts,
       generate_schedule (λ _, 0) default_names10 16 3 4 = Ok (schedule, counts)).
Proof. apply (C10_raises_iff (λ _, 0) default_names10 16 3 4); lia. Defined.


(** * Beyond the claims: the rotation through the roster *)

(** ** Sorting a roster with two levels of counts *)

Lemma insert_stable_front x (r : list (nat * string)) :
  Forall (λ y, x.1 ≤ y.1) r → insert_stable x r = x :: r.
Proof.
  destruct r as [|y r]; [done|]. intros [Hy _]%Forall_cons. simpl.
  by rewrite decide_True.
Qed.

Lemma insert_stable_pass x (lo r : list (nat * string)) :
  Forall (λ y, y.1 < x.1) lo →
  insert_stable x (lo ++ r) = lo ++ insert_stable x r.
Proof.
  induction 1 as [|y lo Hy _ IH]; simpl; [done|].
  rewrite decide_False by lia. by rewrite IH.
Qed.

(** Elements of the higher level in front of elements of the lower level
    are moved behind them, each level keeping its order. *)
Lemma sort_stable_two_levels (a b : nat) (hi lo : list (nat * string)) :
  a < b →
  Forall (λ x, x.1 = b) hi → Forall (λ x, x.1 = a) lo →
  sort_stable (hi ++ lo) = lo ++ hi.
Proof.
  intros Hab Hhi Hlo. induction Hhi as [|x hi Hx Hhi IH]; simpl.
  - rewrite app_nil_r. apply sort_stable_id, StronglySorted_pairwise.
    intros y z Hy Hz. rewrite Forall_forall in Hlo. unfold key_le.
    by rewrite (Hlo y), (Hlo z).
  - fold (sort_stable (hi ++ lo)). rewrite IH.
    rewrite insert_stable_pass.
    + rewrite insert_stable_front; [done|].
      eapply Forall_impl; [exact Hhi|]. simpl. intros; lia.
    + eapply Forall_impl; [exact Hlo|]. simpl. intros; lia.
Qed.

Lemma rotation_counts_count_of (l : list string) played (d : gmap string nat) j t :
  rotation_counts l played d → l !! j = Some t →
  count_of d t
  = played / length l + (if decide (j < played `mod` length l) then 1 else 0).
Proof. intros H Hj. unfold count_of. by rewrite (H j t Hj). Qed.

(** With the counts of a rotation the sort is the rotation itself. *)
Lemma sorted_by_count_rotation (l : list string) played (d : gmap string nat) :
  rotation_counts l played d → sorted_by_count l d = rotate played l.
Proof.
  intros H. unfold sorted_by_count, rotate.
  set (p := played `mod` length l). set (q := played / length l).
  rewrite <-(take_drop p l) at 1. rewrite fmap_app.
  rewrite (sort_stable_two_levels q (S q)); [|lia| |].
  - by rewrite fmap_app, !undecorate.
  - apply Forall_fmap, Forall_forall. intros t Ht. simpl.
    apply list_elem_of_lookup in Ht as [j Hj].
    apply lookup_take_Some in Hj as [Hj Hlt].
    rewrite (rotation_counts_count_of l played d j t H Hj).
    fold p q. rewrite decide_True by done. lia.
  - apply Forall_fmap, Forall_forall. intros t Ht. simpl.
    apply list_elem_of_lookup in Ht as [j Hj].
    rewrite lookup_drop in Hj.
    rewrite (rotation_counts_count_of l played d (p + j) t H Hj).
    fold p q. rewrite decide_False by lia. lia.
Qed.

(** ** The window and the positions of the roster *)

(** Which positions of a roster without repetition a window covers. *)
Lemma elem_of_window (l : list string) (k played j : nat) t :
  NoDup l → l !! j = Some t → k ≤ length l →
  t ∈ window l k played
  ↔ (played `mod` length l ≤ j ∧ j < played `mod` length l + k)
    ∨ j + length l < played `mod` length l + k.
Proof.
  intros Hl Hj Hk. unfold window, rotate.
  set (p := played `mod` length l).
  assert (j < length l) as Hjn by by eapply lookup_lt_Some.
  assert (p < length l) as Hpn by (apply Nat.mod_upper_bound; lia).
  rewrite elem_of_take. split.
  - intros (m & Hm & Hmk).
    apply lookup_app_Some in Hm as [Hm|[Hlen Hm]].
    + rewrite lookup_drop in Hm.
      pose proof (NoDup_lookup _ _ _ _ Hl Hj Hm). lia.
    + rewrite length_drop in Hlen, Hm.
      apply lookup_take_Some in Hm as [Hm Hlt].
      pose proof (NoDup_lookup _ _ _ _ Hl Hj Hm). lia.
  - intros [[Hpj Hjk]|Hwrap].
    + exists (j - p). split; [|lia].
      rewrite lookup_app_l by (rewrite length_drop; lia).
      rewrite lookup_drop. by replace (p + (j - p)) with j by lia.
    + exists (j + length l - p). split; [|lia].
      rewrite lookup_app_r by (rewrite length_drop; lia).
      rewrite length_drop.
      replace (j + length l - p - (length l - p)) with j by lia.
      rewrite lookup_take_lt by lia. done.
Qed.

Lemma window_NoDup (l : list string) (k played : nat) :
  NoDup l → NoDup (window l k played).
Proof.
  intros Hl. unfold window, rotate.
  set (p := played `mod` length l).
  assert (NoDup (drop p l ++ take p l)) as Hr.
  { rewrite <-(take_drop p l) in Hl. by rewrite (Permutation_app_comm). }
  rewrite <-(take_drop k (drop p l ++ take p l)) in Hr.
  by apply NoDup_app in Hr as [? _].
Qed.

(** Filling [k] more places: the quotient and the remainder by the
    roster size. *)
Lemma played_step (n k played : nat) :
  0 < n → k ≤ n →
  if decide (played `mod` n + k < n)
  then (played + k) / n = played / n
       ∧ (played + k) `mod` n = played `mod` n + k
  else (played + k) / n = S (played / n)
       ∧ (played + k) `mod` n = played `mod` n + k - n.
Proof.
  intros Hn Hk.
  pose proof (Nat.div_mod_eq played n) as Hdm.
  pose proof (Nat.mod_upper_bound played n) as Hp.
  case_decide as Hlt.
  - assert ((played + k) / n = played / n) as Hq.
    { symmetry. apply (Nat.div_unique _ _ _ (played `mod` n + k)); lia. }
    split; [done|].
    symmetry. apply (Nat.mod_unique _ _ (played / n)); lia.
  - assert ((played + k) / n = S (played / n)) as Hq.
    { symmetry. apply (Nat.div_unique _ _ _ (played `mod` n + k - n)); lia. }
    split; [done|].
    symmetry. apply (Nat.mod_unique _ _ (S (played / n))); lia.
Qed.

(** Incrementing the teams of the window moves the rotation on by the
    size of the window. *)
Lemma bump_window_rotation (l : list string) (k played : nat) (d : gmap string nat) :
  NoDup l → k ≤ length l →
  rotation_counts l played d →
  rotation_counts l (played + k) (bump d (window l k played)).
Proof.
  intros Hl Hk Hd j t Hj.
  assert (j < length l) as Hjn by by eapply lookup_lt_Some.
  assert (is_Some (bump d (window l k played) !! t)) as [c Hc].
  { apply bump_is_Some. left. rewrite (Hd j t Hj). eauto. }
  rewrite Hc. f_equal. apply lookup_count_of in Hc. subst c.
  rewrite count_of_bump, (rotation_counts_count_of l played d j t Hd Hj).
  rewrite occurrences_NoDup by by apply window_NoDup.
  pose proof (elem_of_window l k played j t Hl Hj Hk) as Hw.
  pose proof (played_step (length l) k played ltac:(lia) Hk) as Hstep.
  pose proof (Nat.mod_upper_bound played (length l) ltac:(lia)) as Hp.
  destruct (decide (played `mod` length l + k < length l));
    destruct Hstep as [-> ->];
    destruct (decide (t ∈ window l k played)) as [Hin|Hnin];
    repeat case_decide; try lia.
  all: try (apply Hw in Hin; lia).
  all: exfalso; apply Hnin, Hw; lia.
Qed.

(** ** The run goes round the roster *)

Section Rotation.

Variable team_names : list string.
Variable teams_per_match : nat.
Hypothesis unique_names : NoDup team_names.
Hypothesis enough_teams : teams_per_match ≤ length team_names.

Local Abbreviation next_state' := (next_state team_names teams_per_match).
Local Abbreviation matches_from' := (matches_from team_names teams_per_match).
Local Abbreviation state_after' := (state_after team_names teams_per_match).

Lemma selection_window played (d : gmap string nat) :
  rotation_counts team_names played d →
  selection team_names teams_per_match d = window team_names teams_per_match played.
Proof using Type. intros H. unfold selection, window. by rewrite (sorted_by_count_rotation _ played). Qed.

Lemma next_state_rotation played st :
  rotation_counts team_names played (team_match_count st) →
  rotation_counts team_names (played + teams_per_match)
    (team_match_count (next_state' st)).
Proof using unique_names enough_teams.
  intros H. simpl. rewrite (selection_window played) by done.
  by apply bump_window_rotation.
Qed.

Lemma state_after_rotation n played st :
  rotation_counts team_names played (team_match_count st) →
  rotation_counts team_names (played + n * teams_per_match)
    (team_match_count (state_after' n st)).
Proof using unique_names enough_teams.
  revert played st. induction n as [|n IH]; intros played st H; simpl.
  - by rewrite Nat.add_0_r.
  - replace (played + (teams_per_match + n * teams_per_match))
      with (played + teams_per_match + n * teams_per_match) by lia.
    by apply IH, next_state_rotation.
Qed.

Lemma matches_from_window n played st i m :
  rotation_counts team_names played (team_match_count st) →
  matches_from' n st !! i = Some m →
  match_id m = next_match_id st + i
  ∧ teams m = window team_names teams_per_match (played + i * teams_per_match).
Proof using unique_names enough_teams.
  revert played st i. induction n as [|n IH]; intros played st i H Hm; [done|].
  destruct i as [|i]; simpl in Hm.
  - injection Hm as <-. simpl. rewrite !Nat.add_0_r.
    split; [done|]. by apply selection_window.
  - apply (IH (played + teams_per_match)) in Hm; [|by apply next_state_rotation].
    destruct Hm as [-> ->]. simpl. split; [lia|]. f_equal. lia.
Qed.

Lemma initial_state_rotation :
  rotation_counts team_names 0 (team_match_count (initial_state team_names)).
Proof using Type.
  intros j t Hj. simpl. rewrite dict_of_pairs_zeros_lookup.
  rewrite decide_True by (apply list_elem_of_lookup; eauto).
  rewrite Nat.Div0.div_0_l, Nat.Div0.mod_0_l.
  rewrite decide_False; [done|]. apply Nat.nlt_0_r.
Qed.

End Rotation.

(** X1: with unique names and [teams_per_match <= len(roster)] the
    schedule goes round the roster: match number [i + 1] holds the
    [teams_per_match] teams that follow, cyclically and in roster order,
    the [i * teams_per_match] places already filled. *)
Theorem X1_schedule_is_rotation (rng : Rng) (team_names : list string)
    (teams_per_match tournament_days matches_per_day : nat) :
  NoDup team_names → teams_per_match ≤ length team_names →
  ∃ schedule counts,
    generate_schedule rng team_names teams_per_match tournament_days matches_per_day
    = Ok (schedule, counts)
    ∧ length (all_matches schedule) = tournament_days * matches_per_day
    ∧ ∀ i m, all_matches schedule !! i = Some m →
        match_id m = i + 1
        ∧ teams m = take teams_per_match (rotate (i * teams_per_match) team_names).
Proof.
  intros Hu Hk. eexists _, _. split; [by apply generate_schedule_ok|].
  rewrite all_matches_days_from, length_seq.
  split; [apply matches_from_length|].
  intros i m Hm.
  apply (matches_from_window team_names teams_per_match Hu Hk _ 0) in Hm;
    [|by apply initial_state_rotation].
  destruct Hm as [-> ->]. simpl. split; [lia|done].
Qed.

Lemma X1_schedule_is_rotation_witness :
  ∃ schedule counts,
    generate_schedule (λ _, 0) roster10 4 3 2 = Ok (schedule, counts)
    ∧ length (all_matches schedule) = 3 * 2
    ∧ ∀ i m, all_matches schedule !! i = Some m →
        match_id m = i + 1
        ∧ teams m = take 4 (rotate (i * 4) roster10).
Proof.
  apply (X1_schedule_is_rotation (λ _, 0) roster10 4 3 2).
  - by apply (bool_decide_unpack _).
  - simpl; lia.
Defined.

(** X2: with unique names and [teams_per_match <= len(roster)], once
    [total = tournament_days * matches_per_day * teams_per_match] places
    are filled the team at position [j] of the roster has played
    [total // n] matches, and one more when [j < total % n], for [n] the
    size of the roster. *)
Theorem X2_final_counts (rng : Rng) (team_names : list string)
    (teams_per_match tournament_days matches_per_day : nat) :
  NoDup team_names → teams_per_match ≤ length team_names →
  ∃ schedule counts,
    generate_schedule rng team_names teams_per_match tournament_days matches_per_day
    = Ok (schedule, counts)
    ∧ ∀ j t, team_names !! j = Some t →
        let total := tournament_days * matches_per_day * teams_per_match in
        counts !! t
        = Some (total / length team_names
                + (if decide (j < total `mod` length team_names) then 1 else 0)).
Proof.
  intros Hu Hk. eexists _, _. split; [by apply generate_schedule_ok|].
  intros j t Hj total.
  pose proof (state_after_rotation team_names teams_per_match Hu Hk
                (tournament_days * matches_per_day) 0 _
                (initial_state_rotation team_names)) as H.
  simpl in H. by apply H.
Qed.

Lemma X2_final_counts_witness :
  ∃ schedule counts,
    generate_schedule (λ _, 0) roster10 4 3 2 = Ok (schedule, counts)
    ∧ ∀ j t, roster10 !! j = Some t →
        let total := 3 * 2 * 4 in
        counts !! t
        = Some (total / length roster10
                + (if decide (j < total `mod` length roster10) then 1 else 0)).
Proof.
  apply (X2_final_counts (λ _, 0) roster10 4 3 2).
  - by apply (bool_decide_unpack _).
  - simpl; lia.
Defined.

(** * Beyond the claims: the schedule and the counts agree *)

Section Tally.

Variable team_names : list string.
Variable teams_per_match : nat.

Local Abbreviation next_state' := (next_state team_names teams_per_match).
Local Abbreviation matches_from' := (matches_from team_names teams_per_match).
Local Abbreviation state_after' := (state_after team_names teams_per_match).

Lemma state_after_tally n st t :
  count_of (team_match_count (state_after' n st)) t
  = count_of (team_match_count st) t
    + length (filter (t =.) (concat (teams <$> matches_from' n st))).
Proof.
  revert st. induction n as [|n IH]; intros st; simpl; [lia|].
  rewrite IH. csimpl. rewrite count_of_bump, filter_app, length_app. lia.
Qed.

Lemma state_after_keys n st :
  keys_exact team_names (team_match_count st) →
  keys_exact team_names (team_match_count (state_after' n st)).
Proof.
  revert st. induction n as [|n IH]; intros st H; simpl; [done|].
  apply IH. simpl. intros t. rewrite bump_is_Some, (H t).
  pose proof (selection_subseteq team_names teams_per_match (team_match_count st) t).
  naive_solver.
Qed.

End Tally.

Lemma initial_state_keys (team_names : list string) :
  keys_exact team_names (team_match_count (initial_state team_names)).
Proof.
  intros t. simpl. rewrite dict_of_pairs_zeros_lookup.
  case_decide; split; try done.
Qed.

(** X3: with [teams_per_match <= len(roster)] the returned dict has the
    teams of the roster as its keys, and the count of a team is the
    number of places it takes in the matches of the returned schedule. *)
Theorem X3_counts_tally_schedule (rng : Rng) (team_names : list string)
    (teams_per_match tournament_days matches_per_day : nat) :
  teams_per_match ≤ length team_names →
  ∃ schedule counts,
    generate_schedule rng team_names teams_per_match tournament_days matches_per_day
    = Ok (schedule, counts)
    ∧ ∀ t, counts !! t
           = if decide (t ∈ team_names) then Some (appearances t schedule) else None.
Proof.
  intros Hk. eexists _, _. split; [by apply generate_schedule_ok|].
  intros t. unfold appearances. rewrite all_matches_days_from, length_seq.
  pose proof (state_after_keys team_names teams_per_match
                (tournament_days * matches_per_day) _
                (initial_state_keys team_names) t) as Hkeys.
  pose proof (state_after_tally team_names teams_per_match
                (tournament_days * matches_per_day)
                (initial_state team_names) t) as Htally.
  rewrite initial_state_counts in Htally. simpl in Htally.
  case_decide as Ht.
  - apply Hkeys in Ht as [c Hc]. rewrite Hc. f_equal.
    apply lookup_count_of in Hc. by rewrite <-Hc, Htally.
  - apply eq_None_not_Some. by rewrite Hkeys.
Qed.

Lemma X3_counts_tally_schedule_witness :
  ∃ schedule counts,
    generate_schedule (λ _, 0) roster10 4 3 2 = Ok (schedule, counts)
    ∧ ∀ t, counts !! t
           = if decide (t ∈ roster10) then Some (appearances t schedule) else None.
Proof. apply (X3_counts_tally_schedule (λ _, 0) roster10 4 3 2); simpl; lia. Defined.

(** X4: with [teams_per_match <= len(roster)] the day-records are
    numbered 1, 2, ..., [tournament_days], in this order. *)
Theorem X4_day_numbers (rng : Rng) (team_names : list string)
    (teams_per_match tournament_days matches_per_day : nat) :
  teams_per_match ≤ length team_names →
  ∃ schedule counts,
    generate_schedule rng team_names teams_per_match tournament_days matches_per_day
    = Ok (schedule, counts)
    ∧ day <$> schedule = seq 1 tournament_days.
Proof.
  intros Hk. eexists _, _. split; [by apply generate_schedule_ok|].
  rewrite days_from_numbers, <-fmap_S_seq.
  apply list_fmap_ext. intros; lia.
Qed.

Lemma X4_day_numbers_witness :
  ∃ schedule counts,
    generate_schedule (λ _, 0) roster10 4 3 2 = Ok (schedule, counts)
    ∧ day <$> schedule = seq 1 3.
Proof. apply (X4_day_numbers (λ _, 0) roster10 4 3 2); simpl; lia. Defined.

(** X5: with [teams_per_match <= len(roster)] every team of every match
    of the returned schedule is a team of the roster. *)
Theorem X5_teams_from_roster (rng : Rng) (team_names : list string)
    (teams_per_match tournament_days matches_per_day : nat) :
  teams_per_match ≤ length team_names →
  ∃ schedule counts,
    generate_schedule rng team_names teams_per_match tournament_days matches_per_day
    = Ok (schedule, counts)
    ∧ Forall (λ dr, Forall (λ m, ∀ t, t ∈ teams m → t ∈ team_names) (matches dr))
        schedule.
Proof.
  intros Hk. eexists _, _. split; [by apply generate_schedule_ok|].
  apply Forall_all_matches. rewrite all_matches_days_from.
  apply matches_from_subseteq.
Qed.

Lemma X5_teams_from_roster_witness :
  ∃ schedule counts,
    generate_schedule (λ _, 0) roster10 4 3 2 = Ok (schedule, counts)
    ∧ Forall (λ dr, Forall (λ m, ∀ t, t ∈ teams m → t ∈ roster10) (matches dr))
        schedule.
Proof. apply (X5_teams_from_roster (λ _, 0) roster10 4 3 2); simpl; lia. Defined.

(** * Beyond the claims: when and how the run fails *)

Lemma schedule_loop_no_matches (rng : Rng) (team_names : list string)
    (teams_per_match : nat) days schedule st :
  schedule_loop rng team_names teams_per_match 0 days schedule st
  = Ok (schedule ++ ((λ d, mkDay (d + 1) []) <$> days), st).
Proof.
  revert schedule. induction days as [|d days IH]; intros schedule; csimpl.
  - by rewrite app_nil_r.
  - rewrite IH. by rewrite <-app_assoc.
Qed.

(** X6: whatever the roster and the settings, the only exception
    [generate_schedule] raises is the [ValueError] of [random.sample]; no
    dict subscript fails, also when names repeat.  It is raised only when
    [teams_per_match > len(roster)] and at least one match is to be
    formed. *)
Theorem X6_only_ValueError (rng : Rng) (team_names : list string)
    (teams_per_match tournament_days matches_per_day : nat) (e : exn) :
  generate_schedule rng team_names teams_per_match tournament_days matches_per_day
  = Raise e →
  e = ValueError
  ∧ length team_names < teams_per_match
  ∧ 1 ≤ tournament_days ∧ 1 ≤ matches_per_day.
Proof.
  intros He.
  destruct (decide (teams_per_match ≤ length team_names)) as [Hk|Hk].
  { by rewrite generate_schedule_ok in He. }
  destruct tournament_days as [|days]; [done|].
  destruct matches_per_day as [|mpd].
  { unfold generate_schedule, run in He.
    by rewrite schedule_loop_no_matches in He. }
  rewrite generate_schedule_raises in He by lia.
  injection He as <-. repeat split; lia.
Qed.

Lemma X6_only_ValueError_witness :
  ValueError = ValueError
  ∧ length default_names10 < 16 ∧ 1 ≤ 3 ∧ 1 ≤ 4.
Proof.
  apply (X6_only_ValueError (λ _, 0) default_names10 16 3 4 ValueError).
  vm_compute. reflexivity.
Defined.

(** * Beyond the claims: more days, a full roster, whole rounds *)

Lemma days_from_app (team_names : list string) (teams_per_match matches_per_day : nat)
    days1 days2 st :
  days_from team_names teams_per_match matches_per_day (days1 ++ days2) st
  = days_from team_names teams_per_match matches_per_day days1 st
    ++ days_from team_names teams_per_match matches_per_day days2
         (state_after team_names teams_per_match (length days1 * matches_per_day) st).
Proof.
  revert st. induction days1 as [|d days1 IH]; intros st; simpl; [done|].
  by rewrite IH, state_after_add.
Qed.

(** X7: with [teams_per_match <= len(roster)], the schedule of a shorter
    tournament is the beginning of the schedule of a longer one: adding
    days leaves the earlier days as they were. *)
Theorem X7_more_days_extend (rng : Rng) (team_names : list string)
    (teams_per_match days1 days2 matches_per_day : nat) :
  teams_per_match ≤ length team_names → days1 ≤ days2 →
  ∃ schedule1 counts1 schedule2 counts2,
    generate_schedule rng team_names teams_per_match days1 matches_per_day
    = Ok (schedule1, counts1)
    ∧ generate_schedule rng team_names teams_per_match days2 matches_per_day
      = Ok (schedule2, counts2)
    ∧ schedule1 = take days1 schedule2.
Proof.
  intros Hk Hd. eexists _, _, _, _.
  split; [by apply generate_schedule_ok|].
  split; [by apply generate_schedule_ok|].
  replace days2 with (days1 + (days2 - days1)) by lia.
  rewrite seq_app, days_from_app.
  rewrite take_app_length'; [done|].
  by rewrite days_from_length, length_seq.
Qed.

Lemma X7_more_days_extend_witness :
  ∃ schedule1 counts1 schedule2 counts2,
    generate_schedule (λ _, 0) roster10 4 2 3 = Ok (schedule1, counts1)
    ∧ generate_schedule (λ _, 0) roster10 4 5 3 = Ok (schedule2, counts2)
    ∧ schedule1 = take 2 schedule2.
Proof. apply (X7_more_days_extend (λ _, 0) roster10 4 2 5 3); simpl; lia. Defined.

Lemma rotate_multiple {A} (l : list A) (i : nat) :
  rotate (i * length l) l = l.
Proof.
  unfold rotate. rewrite Nat.Div0.mod_mul. simpl. by rewrite app_nil_r.
Qed.

(** X8: with unique names and [teams_per_match = len(roster)], the
    default of the form for 16 teams, every match of the schedule lists
    the whole roster in roster order. *)
Theorem X8_full_roster (rng : Rng) (team_names : list string)
    (teams_per_match tournament_days matches_per_day : nat) :
  NoDup team_names → teams_per_match = length team_names →
  ∃ schedule counts,
    generate_schedule rng team_names teams_per_match tournament_days matches_per_day
    = Ok (schedule, counts)
    ∧ Forall (λ dr, Forall (λ m, teams m = team_names) (matches dr)) schedule.
Proof.
  intros Hu ->. eexists _, _. split; [by apply generate_schedule_ok|].
  apply Forall_all_matches. rewrite all_matches_days_from.
  apply Forall_lookup. intros i m Hm.
  apply (matches_from_window team_names (length team_names) Hu (reflexivity _) _ 0)
    in Hm; [|by apply initial_state_rotation].
  destruct Hm as [_ ->]. unfold window. simpl.
  rewrite rotate_multiple. by apply take_ge.
Qed.

Lemma X8_full_roster_witness :
  ∃ schedule counts,
    generate_schedule (λ _, 0) roster10 10 3 2 = Ok (schedule, counts)
    ∧ Forall (λ dr, Forall (λ m, teams m = roster10) (matches dr)) schedule.
Proof.
  apply (X8_full_roster (λ _, 0) roster10 10 3 2).
  - by apply (bool_decide_unpack _).
  - reflexivity.
Defined.

Lemma concat_chunks {A} (r k : nat) (l : list A) :
  length l = r * k →
  concat ((λ a, take k (drop (a * k) l)) <$> seq 0 r) = l.
Proof.
  revert l. induction r as [|r IH]; intros l Hl.
  - by destruct l.
  - simpl. rewrite <-fmap_S_seq, <-list_fmap_compose.
    assert (((λ a, take k (drop (a * k) l)) ∘ S) <$> seq 0 r
            = (λ a, take k (drop (a * k) (drop k l))) <$> seq 0 r) as ->.
    { apply list_fmap_ext. intros i a _. simpl. by rewrite drop_drop. }
    rewrite IH by (rewrite length_drop; lia). by rewrite drop_0, take_drop.
Qed.

Lemma window_chunk (l : list string) (r k c a : nat) :
  length l = r * k → a < r →
  window l k ((c * r + a) * k) = take k (drop (a * k) l).
Proof.
  intros Hl Ha. unfold window, rotate.
  destruct (decide (k = 0)) as [->|Hk]; [done|].
  assert (((c * r + a) * k) `mod` length l = a * k) as ->.
  { rewrite Hl. replace ((c * r + a) * k) with (a * k + c * (r * k)) by lia.
    rewrite Nat.Div0.mod_add. apply Nat.mod_small.
    assert ((a + 1) * k ≤ r * k) by (apply Nat.mul_le_mono_r; lia). lia. }
  apply take_app_le. rewrite length_drop.
  assert ((a + 1) * k ≤ r * k) by (apply Nat.mul_le_mono_r; lia). lia.
Qed.

(** X9: with unique names and a roster of [r * teams_per_match] teams,
    [r >= 1], every [r] consecutive matches counted from the first, second, ...
    whole round list the roster exactly once, in roster order: in each
    round every team plays exactly one match. *)
Theorem X9_whole_rounds (rng : Rng) (team_names : list string)
    (teams_per_match tournament_days matches_per_day r c : nat) :
  NoDup team_names →
  1 ≤ r → length team_names = r * teams_per_match →
  (c + 1) * r ≤ tournament_days * matches_per_day →
  ∃ schedule counts,
    generate_schedule rng team_names teams_per_match tournament_days matches_per_day
    = Ok (schedule, counts)
    ∧ concat (teams <$> take r (drop (c * r) (all_matches schedule))) = team_names.
Proof.
  intros Hu Hr Hl Hc.
  assert (teams_per_match ≤ length team_names) as Hk.
  { rewrite Hl. destruct r as [|r]; simpl; lia. }
  eexists _, _. split; [by apply generate_schedule_ok|].
  rewrite all_matches_days_from, length_seq.
  rewrite <-(concat_chunks r teams_per_match team_names Hl) at 3.
  f_equal. apply list_eq. intros a.
  rewrite !list_lookup_fmap, lookup_take, lookup_drop.
  case_decide as Ha.
  - rewrite lookup_seq_lt by done. simpl.
    destruct (matches_from team_names teams_per_match
                (tournament_days * matches_per_day) (initial_state team_names)
              !! (c * r + a)) as [m|] eqn:Hm.
    + apply (matches_from_window team_names teams_per_match Hu Hk _ 0) in Hm;
        [|by apply initial_state_rotation].
      destruct Hm as [_ Hm]. simpl in *. rewrite Hm.
      by rewrite (window_chunk team_names r).
    + apply lookup_ge_None in Hm. rewrite matches_from_length in Hm. lia.
  - by rewrite lookup_seq_ge by lia.
Qed.

Lemma X9_whole_rounds_witness :
  ∃ schedule counts,
    generate_schedule (λ _, 0) roster10 5 3 2 = Ok (schedule, counts)
    ∧ concat (teams <$> take 2 (drop (1 * 2) (all_matches schedule))) = roster10.
Proof.
  apply (X9_whole_rounds (λ _, 0) roster10 5 3 2 2 1).
  - by apply (bool_decide_unpack _).
  - lia.
  - reflexivity.
  - simpl; lia.
Defined.


(** * Beyond the claims: the form and the button *)

Example default_names10_collected :
  collect_names 10 default_name = default_names10.
Proof. vm_compute. reflexivity. Qed.

Example join_teams_three : join_teams ["A"; "B"; "C"] = "A, B, C".
Proof. reflexivity. Qed.

(** A name with a comma makes the cell of the teams ambiguous. *)
Example join_teams_ambiguous :
  join_teams ["a, b"; "c"] = join_teams ["a"; "b, c"].
Proof. reflexivity. Qed.

Lemma size_list_to_set_le (l : list string) :
  size (list_to_set l : gset string) ≤ length l.
Proof.
  induction l as [|x l IH].
  - done.
  - simpl. destruct (decide (x ∈ l)) as [Hx|Hx].
    + rewrite (subseteq_union_1_L {[x]}); [lia|]. set_solver.
    + rewrite size_union by set_solver. rewrite size_singleton. lia.
Qed.

Lemma size_list_to_set_NoDup (l : list string) :
  size (list_to_set l : gset string) = length l → NoDup l.
Proof.
  induction l as [|x l IH]; simpl; [constructor|].
  pose proof (size_list_to_set_le l) as Hle.
  destruct (decide (x ∈ l)) as [Hx|Hx].
  - rewrite (subseteq_union_1_L {[x]}) by set_solver. lia.
  - rewrite size_union by set_solver. rewrite size_singleton.
    intros Hs. constructor; [done|]. apply IH. lia.
Qed.

Lemma names_unique_NoDup (team_names : list string) :
  names_unique team_names (length team_names) = true ↔ NoDup team_names.
Proof.
  unfold names_unique. rewrite bool_decide_eq_true. split.
  - apply size_list_to_set_NoDup.
  - apply size_list_to_set.
Qed.

(** X10: for the [total_teams] names of the form, the test
    [len(set(team_names)) == total_teams] succeeds exactly when no name
    occurs twice. *)
Theorem X10_unique_gate (team_names : list string) (total_teams : nat) :
  length team_names = total_teams →
  names_unique team_names total_teams = true ↔ NoDup team_names.
Proof. intros <-. apply names_unique_NoDup. Qed.

Lemma X10_unique_gate_witness :
  names_unique roster10 10 = true ↔ NoDup roster10.
Proof. apply (X10_unique_gate roster10 10). reflexivity. Defined.

Lemma default_name_inj : Inj (=) (=) default_name.
Proof.
  intros i j H. unfold default_name in H.
  apply (inj (String.app "Team ")), (inj pretty) in H. lia.
Qed.

(** X11: the names the form proposes, [Team 1], [Team 2], ..., are
    pairwise distinct for every number of teams: a form left as proposed
    passes the uniqueness test. *)
Theorem X11_default_names_unique (total_teams : nat) :
  length (collect_names total_teams default_name) = total_teams
  ∧ NoDup (collect_names total_teams default_name)
  ∧ names_unique (collect_names total_teams default_name) total_teams = true.
Proof.
  assert (length (collect_names total_teams default_name) = total_teams) as Hlen.
  { unfold collect_names. by rewrite length_fmap, length_seq. }
  assert (NoDup (collect_names total_teams default_name)) as Hnd.
  { unfold collect_names.
    apply NoDup_fmap_2_strong; [|apply NoDup_seq].
    intros i j _ _. apply default_name_inj. }
  split; [done|]. split; [done|].
  unfold names_unique. rewrite bool_decide_eq_true.
  by rewrite size_list_to_set.
Qed.

(** ** The button *)

(** X12: the button shows the error of line 176, and no schedule,
    exactly when a name occurs twice; it then does not run
    [generate_schedule], whatever the settings.  With distinct names and
    more teams per match than teams the [ValueError] of the generator
    reaches the caller. *)
Theorem X12_button_rejects_duplicates (rng : Rng) (format_date : Z → string)
    (start_date : Z) (team_names : list string)
    (total_teams teams_per_match tournament_days matches_per_day : nat) :
  length team_names = total_teams →
  (on_generate rng format_date start_date team_names total_teams
     teams_per_match tournament_days matches_per_day = Ok ErrorShown
   ↔ ¬ NoDup team_names)
  ∧ (NoDup team_names → total_teams < teams_per_match →
     1 ≤ tournament_days → 1 ≤ matches_per_day →
     on_generate rng format_date start_date team_names total_teams
       teams_per_match tournament_days matches_per_day = Raise ValueError).
Proof.
  intros <-. unfold on_generate.
  pose proof (names_unique_NoDup team_names) as Hu.
  destruct (names_unique team_names (length team_names)).
  - assert (NoDup team_names) as Hnd by by apply Hu. split.
    + split; [|done].
      destruct (generate_schedule _ _ _ _ _) as [[sch c]|e]; simpl; done.
    + intros _ Hlt Hd Hm. by rewrite generate_schedule_raises.
  - assert (¬ NoDup team_names) as Hnd by (intros H; by apply Hu in H).
    split; [done|]. intros H. by destruct Hnd.
Qed.

Lemma X12_button_rejects_duplicates_witness :
  (on_generate (λ _, 0) (λ _, ""%string) 0 ["A"; "B"; "A"]%string 3 2 1 1
   = Ok ErrorShown
   ↔ ¬ NoDup ["A"; "B"; "A"]%string)
  ∧ (NoDup ["A"; "B"; "A"]%string → 3 < 2 → 1 ≤ 1 → 1 ≤ 1 →
     on_generate (λ _, 0) (λ _, ""%string) 0 ["A"; "B"; "A"]%string 3 2 1 1
     = Raise ValueError).
Proof.
  apply (X12_button_rejects_duplicates (λ _, 0) (λ _, ""%string) 0
           ["A"; "B"; "A"]%string 3 2 1 1).
  reflexivity.
Defined.

(** ** The export rows *)

Lemma csv_rows_length fd start (schedule : list Day) :
  length (csv_rows fd start schedule) = length (all_matches schedule).
Proof.
  unfold csv_rows, all_matches.
  induction schedule as [|dr sch IH]; csimpl; [done|].
  by rewrite !length_app, length_fmap, IH.
Qed.

Lemma csv_rows_match_ids fd start (schedule : list Day) :
  csv_match_id <$> csv_rows fd start schedule = pretty <$> match_ids schedule.
Proof.
  unfold csv_rows, match_ids.
  induction schedule as [|dr sch IH]; csimpl; [done|].
  rewrite !fmap_app, IH. f_equal.
  rewrite <-!list_fmap_compose. by apply list_fmap_ext.
Qed.

Lemma csv_rows_days fd start teams_names tpm mpd days st :
  csv_day <$> csv_rows fd start (days_from teams_names tpm mpd days st)
  = concat ((λ d, replicate mpd ("Day " +:+ pretty (d + 1))) <$> days).
Proof.
  unfold csv_rows. revert st.
  induction days as [|d days IH]; intros st; csimpl; [done|].
  rewrite fmap_app, IH. f_equal.
  rewrite <-list_fmap_compose.
  rewrite <-(matches_from_length teams_names tpm mpd st) at 2.
  generalize (matches_from teams_names tpm mpd st). intros ms.
  induction ms as [|m ms IHms]; csimpl; by rewrite ?IHms.
Qed.

Lemma csv_rows_dates fd start teams_names tpm mpd days st :
  csv_date <$> csv_rows fd start (days_from teams_names tpm mpd days st)
  = concat ((λ d, replicate mpd (fd (start + (Z.of_nat (d + 1) - 1))%Z)) <$> days).
Proof.
  unfold csv_rows. revert st.
  induction days as [|d days IH]; intros st; csimpl; [done|].
  rewrite fmap_app, IH. f_equal.
  rewrite <-list_fmap_compose.
  rewrite <-(matches_from_length teams_names tpm mpd st) at 2.
  generalize (matches_from teams_names tpm mpd st). intros ms.
  induction ms as [|m ms IHms]; csimpl; by rewrite ?IHms.
Qed.

(** X13: with distinct names and [teams_per_match <= total_teams] the
    button shows a schedule, and the export has one row per match:
    [total_matches] rows (the total announced on line 44) whose match
    ids read "1", "2", ..., in this order. *)
Theorem X13_export_one_row_per_match (rng : Rng) (format_date : Z → string)
    (start_date : Z) (team_names : list string)
    (total_teams teams_per_match tournament_days matches_per_day : nat) :
  length team_names = total_teams → NoDup team_names →
  teams_per_match ≤ total_teams →
  ∃ schedule counts rows,
    on_generate rng format_date start_date team_names total_teams
      teams_per_match tournament_days matches_per_day
    = Ok (ScheduleShown schedule counts rows)
    ∧ generate_schedule rng team_names teams_per_match tournament_days
        matches_per_day = Ok (schedule, counts)
    ∧ length rows = total_matches tournament_days matches_per_day
    ∧ csv_match_id <$> rows
      = pretty <$> seq 1 (total_matches tournament_days matches_per_day).
Proof.
  intros <- Hu Hk. unfold on_generate.
  rewrite (proj2 (names_unique_NoDup team_names) Hu).
  rewrite generate_schedule_ok by done. simpl. eexists _, _, _.
  split; [done|]. split; [done|]. unfold total_matches. split.
  - by rewrite csv_rows_length, all_matches_days_from, matches_from_length, length_seq.
  - rewrite csv_rows_match_ids, match_ids_all_matches, all_matches_days_from.
    by rewrite matches_from_ids, length_seq.
Qed.

Lemma X13_export_one_row_per_match_witness :
  ∃ schedule counts rows,
    on_generate (λ _, 0) (λ _, ""%string) 0 roster10 10 4 3 2
    = Ok (ScheduleShown schedule counts rows)
    ∧ generate_schedule (λ _, 0) roster10 4 3 2 = Ok (schedule, counts)
    ∧ length rows = total_matches 3 2
    ∧ csv_match_id <$> rows = pretty <$> seq 1 (total_matches 3 2).
Proof.
  apply (X13_export_one_row_per_match (λ _, 0) (λ _, ""%string) 0 roster10 10 4 3 2).
  - reflexivity.
  - by apply (bool_decide_unpack _).
  - lia.
Defined.

Lemma last_concat_replicate {A} (f : nat → A) (n len : nat) :
  last (concat ((λ d, replicate (S n) (f d)) <$> seq 0 (S len))) = Some (f len).
Proof.
  rewrite seq_S, fmap_app, concat_app, last_app.
  change (concat ((λ d, replicate (S n) (f d)) <$> [0 + len]))
    with (replicate (S n) (f len) ++ []).
  by rewrite app_nil_r, replicate_S_end, last_snoc.
Qed.

(** X14: with distinct names and [teams_per_match <= total_teams], the
    export gives every day [matches_per_day] rows labelled with its
    number, "Day 1", "Day 2", ..., and with its date: the start date for
    day 1 and one day more for each following day, so that the last row
    carries the end date computed on line 38. *)
Theorem X14_export_days_and_dates (rng : Rng) (format_date : Z → string)
    (start_date : Z) (team_names : list string)
    (total_teams teams_per_match tournament_days matches_per_day : nat) :
  length team_names = total_teams → NoDup team_names →
  teams_per_match ≤ total_teams →
  ∃ schedule counts rows,
    on_generate rng format_date start_date team_names total_teams
      teams_per_match tournament_days matches_per_day
    = Ok (ScheduleShown schedule counts rows)
    ∧ csv_day <$> rows
      = concat ((λ d, replicate matches_per_day ("Day " +:+ pretty d))
                <$> seq 1 tournament_days)
    ∧ csv_date <$> rows
      = concat ((λ z, replicate matches_per_day (format_date z))
                <$> seqZ start_date (Z.of_nat tournament_days))
    ∧ (1 ≤ tournament_days → 1 ≤ matches_per_day →
       last (csv_date <$> rows)
       = Some (format_date (end_date start_date tournament_days))).
Proof.
  intros <- Hu Hk. unfold on_generate.
  rewrite (proj2 (names_unique_NoDup team_names) Hu).
  rewrite generate_schedule_ok by done. simpl. eexists _, _, _.
  split; [done|].
  rewrite csv_rows_days, csv_rows_dates.
  split; [|split].
  - rewrite <-fmap_S_seq, <-list_fmap_compose. f_equal.
    apply list_fmap_ext. intros i d _. simpl. do 3 f_equal. lia.
  - unfold seqZ. rewrite Nat2Z.id, <-list_fmap_compose. f_equal.
    apply list_fmap_ext. intros i d _. simpl. do 2 f_equal. lia.
  - intros Hd Hm.
    destruct tournament_days as [|days]; [lia|].
    destruct matches_per_day as [|mpd]; [lia|].
    rewrite (last_concat_replicate
               (λ d, format_date (start_date + (Z.of_nat (d + 1) - 1))%Z)).
    unfold end_date. do 3 f_equal. lia.
Qed.

Lemma X14_export_days_and_dates_witness :
  ∃ schedule counts rows,
    on_generate (λ _, 0) pretty 738000 roster10 10 4 3 2
    = Ok (ScheduleShown schedule counts rows)
    ∧ csv_day <$> rows
      = concat ((λ d, replicate 2 ("Day " +:+ pretty d)) <$> seq 1 3)
    ∧ csv_date <$> rows
      = concat ((λ z, replicate 2 (pretty z)) <$> seqZ 738000 (Z.of_nat 3))
    ∧ (1 ≤ 3 → 1 ≤ 2 →
       last (csv_date <$> rows) = Some (pretty (end_date 738000 3))).
Proof.
  apply (X14_export_days_and_dates (λ _, 0) pretty 738000%Z roster10 10 4 3 2).
  - reflexivity.
  - by apply (bool_decide_unpack _).
  - lia.
Defined.

(** ** The cell of the teams *)

Lemma comma_free_app_inj (x y r1 r2 : string) :
  comma_free x → comma_free y →
  (r1 = "" ∨ ∃ r, r1 = String "," r)%string →
  (r2 = "" ∨ ∃ r, r2 = String "," r)%string →
  x +:+ r1 = y +:+ r2 → x = y ∧ r1 = r2.
Proof.
  revert y. induction x as [|a x IH]; intros [|b y] Hx Hy H1 H2 Heq; simpl in *.
  - done.
  - destruct Hy as [Hb _]. destruct H1 as [->|[r ->]]; [done|].
    injection Heq as <- _. done.
  - destruct Hx as [Ha _]. destruct H2 as [->|[r ->]]; [done|].
    injection Heq as -> _. done.
  - injection Heq as -> Heq. destruct Hx as [_ Hx], Hy as [_ Hy].
    destruct (IH y Hx Hy H1 H2 Heq) as [-> ->]. done.
Qed.

Lemma string_app_empty_r (s : string) : s +:+ "" = s.
Proof.
  induction s as [|a s IH]; [done|].
  change (String a (s +:+ "") = String a s). by rewrite IH.
Qed.

Lemma join_teams_cons (x : string) (xs : list string) :
  join_teams (x :: xs)
  = x +:+ match xs with [] => "" | _ => ", " +:+ join_teams xs end%string.
Proof. destruct xs; simpl; [by rewrite string_app_empty_r|done]. Qed.

Lemma join_teams_inj (l1 l2 : list string) :
  l1 ≠ [] → l2 ≠ [] → Forall comma_free l1 → Forall comma_free l2 →
  join_teams l1 = join_teams l2 → l1 = l2.
Proof.
  revert l2. induction l1 as [|x xs IH]; intros [|y ys] H1 H2 Hc1 Hc2 Heq; try done.
  apply Forall_cons in Hc1 as [Hx Hxs], Hc2 as [Hy Hys].
  rewrite !join_teams_cons in Heq.
  apply comma_free_app_inj in Heq as [-> Hr]; [|done|done|..].
  - f_equal. destruct xs as [|x' xs], ys as [|y' ys]; try done.
    apply IH; try done. by injection Hr.
  - destruct xs; [by left|right; eauto].
  - destruct ys; [by left|right; eauto].
Qed.

(** X15: when no name contains a comma, the cell of the teams of an
    export row determines the teams of its match and their order: two
    matches (with at least one team each) that give the same cell have
    the same teams. *)
Theorem X15_teams_cell_determines_teams (format_date : Z → string)
    (start1 start2 : Z) (day1 day2 : nat) (m1 m2 : Match) :
  teams m1 ≠ [] → teams m2 ≠ [] →
  Forall comma_free (teams m1) → Forall comma_free (teams m2) →
  csv_teams (csv_row format_date start1 day1 m1)
  = csv_teams (csv_row format_date start2 day2 m2) →
  teams m1 = teams m2.
Proof. simpl. apply join_teams_inj. Qed.

Lemma X15_teams_cell_determines_teams_witness :
  teams (mkMatch 1 ["T1"; "T2"]%string) = teams (mkMatch 7 ["T1"; "T2"]%string).
Proof.
  apply (X15_teams_cell_determines_teams pretty 0 5 1 2
           (mkMatch 1 ["T1"; "T2"]%string) (mkMatch 7 ["T1"; "T2"]%string)).
  - done.
  - done.
  - simpl. repeat constructor; by vm_compute.
  - simpl. repeat constructor; by vm_compute.
  - reflexivity.
Defined.

(** * Beyond the claims: does every team play? *)

(** X16: with unique names, a roster that is not empty and
    [teams_per_match <= len(roster)], every team of the roster plays at
    least one match exactly when the places of the tournament,
    [tournament_days * matches_per_day * teams_per_match], are at least
    as many as the teams. *)
Theorem X16_everyone_plays (rng : Rng) (team_names : list string)
    (teams_per_match tournament_days matches_per_day : nat) :
  NoDup team_names → teams_per_match ≤ length team_names → team_names ≠ [] →
  ∃ schedule counts,
    generate_schedule rng team_names teams_per_match tournament_days matches_per_day
    = Ok (schedule, counts)
    ∧ ((∀ t, t ∈ team_names → ∃ c, counts !! t = Some c ∧ 1 ≤ c)
       ↔ length team_names
         ≤ tournament_days * matches_per_day * teams_per_match).
Proof.
  intros Hu Hk Hne. eexists _, _. split; [by apply generate_schedule_ok|].
  pose proof (state_after_rotation team_names teams_per_match Hu Hk
                (tournament_days * matches_per_day) 0 _
                (initial_state_rotation team_names)) as H.
  simpl in H.
  set (total := tournament_days * matches_per_day * teams_per_match) in *.
  assert (0 < length team_names) as Hn by (destruct team_names; simpl; [done|lia]).
  pose proof (Nat.mod_upper_bound total (length team_names) ltac:(lia)) as Hmod.
  split.
  - intros Hall.
    destruct (lookup_lt_is_Some_2 team_names (length team_names - 1) ltac:(lia))
      as [t Ht].
    destruct (Hall t) as (c & Hc & Hpos); [apply list_elem_of_lookup; eauto|].
    rewrite (H _ _ Ht) in Hc. rewrite decide_False in Hc by lia.
    destruct (decide (length team_names ≤ total)) as [|Hlt]; [done|].
    rewrite Nat.div_small in Hc by lia. injection Hc as <-. lia.
  - intros Hle t [j Hj]%list_elem_of_lookup.
    eexists. split; [by apply (H j t)|].
    assert (1 ≤ total / length team_names); [|lia].
    apply Nat.div_le_lower_bound; lia.
Qed.

Lemma X16_everyone_plays_witness :
  ∃ schedule counts,
    generate_schedule (λ _, 0) roster10 4 1 2 = Ok (schedule, counts)
    ∧ ((∀ t, t ∈ roster10 → ∃ c, counts !! t = Some c ∧ 1 ≤ c)
       ↔ length roster10 ≤ 1 * 2 * 4).
Proof.
  apply (X16_everyone_plays (λ _, 0) roster10 4 1 2).
  - by apply (bool_decide_unpack _).
  - simpl; lia.
  - done.
Defined.
